(** * Simple-Galaxy-Simulation: the force integrator of [gravity.cu]

    A shallow embedding of the CUDA kernel [updateStars], of the device
    function [calculateEscapeVelocity] and of the construction loop,
    the grid and the event loop of [main], together with the properties
    of the integrator.

    - [float] is IEEE 754 binary32, modelled by the executable
      specification of the standard library ([SpecFloat] at precision 24
      and maximal exponent 128, round to nearest even).  Every operation
      is rounded on its own, in the order in which the source writes it;
      [sqrt] at a [float] is the [float] overload, and [min] and [max]
      at [float] are CUDA's [fminf] and [fmaxf].
    - The particle buffer is a [list Star] read and written by index;
      indices and counts are natural numbers.
    - A kernel launch is a pool of threads over one shared buffer.  Each
      thread has a program counter; a schedule (a list of thread indices)
      picks the thread that performs the next access to shared memory.
      The kernel has no synchronisation, so every schedule is possible.
    - The event loop of [main] is a fold over the events that SDL hands
      out; an event carries the values of the union members that the
      code reads.  The drawing of lines 137-147 calls into SDL only and
      is left out. *)

From Stdlib Require Import ZArith Bool Lia.
From Stdlib Require Import Floats.SpecFloat.
From stdpp Require Import base option list.


(** ** Binary32 arithmetic *)

Module F32.

Definition prec : Z := 24.
Definition emax : Z := 128.

Definition t : Type := spec_float.

Definition add : t -> t -> t := SFadd prec emax.
Definition sub : t -> t -> t := SFsub prec emax.
Definition mul : t -> t -> t := SFmul prec emax.
Definition div : t -> t -> t := SFdiv prec emax.
Definition sqrtf : t -> t := SFsqrt prec emax.
Definition opp : t -> t := SFopp.

Definition ltb : t -> t -> bool := SFltb.
Definition leb : t -> t -> bool := SFleb.
Definition eqb : t -> t -> bool := SFeqb.

Definition is_nan (a : t) : bool :=
  match a with S754_nan => true | _ => false end.

Definition is_finite (a : t) : bool :=
  match a with S754_zero _ | S754_finite _ _ _ => true | _ => false end.

(** Conversion of a C [int] to [float]. *)
Definition of_int (n : Z) : t := binary_normalize prec emax n 0 false.

(** A [double] (binary64) value narrowed to [float]. *)
Definition of_double (d : spec_float) : t :=
  match d with
  | S754_finite s m e => binary_round prec emax s m e
  | _ => d
  end.

(** A [float] widened to [double]: the value is kept as it is. *)
Definition to_double (a : t) : spec_float := a.

(** The decimal literal [m * 10^e10] rounded once to precision [p]. *)
Definition decimal (p em : Z) (m : positive) (e10 : Z) : spec_float :=
  match e10 with
  | Zneg k => SFdiv p em (S754_finite false m 0)
                         (S754_finite false (Pos.pow 10 k) 0)
  | _ => binary_normalize p em (Zpos m * 10 ^ e10) 0 false
  end.

(** CUDA's [max] and [min] on [float] are [fmaxf] and [fminf]: when one
    argument is a NaN the other one is returned. *)
Definition fmaxf (a b : t) : t :=
  if is_nan a then b
  else if is_nan b then a
  else if ltb a b then b else a.

Definition fminf (a b : t) : t :=
  if is_nan a then b
  else if is_nan b then a
  else if ltb b a then b else a.

Definition zero : t := S754_zero false.
Definition one : t := S754_finite false 8388608 (-23).
Definition two : t := S754_finite false 8388608 (-22).

End F32.

Declare Scope f32_scope.
Delimit Scope f32_scope with f32.
Bind Scope f32_scope with F32.t.
Infix "+" := F32.add : f32_scope.
Infix "-" := F32.sub : f32_scope.
Infix "*" := F32.mul : f32_scope.
Infix "/" := F32.div : f32_scope.
Notation "- a" := (F32.opp a) : f32_scope.

(** ** Constants of the program *)

Definition SCREEN_WIDTH : Z := 900.
Definition SCREEN_HEIGHT : Z := 900.

(** [0.31f] *)
Definition dt : F32.t := S754_finite false 10401874 (-25).
(** [6.67408e-11], a [double] literal stored in a [float] *)
Definition G : F32.t := S754_finite false 9618363 (-57).
(** [26.44e12], a [double] literal stored in a [float] *)
Definition CENTRAL_MASS : F32.t := S754_finite false 12607574 21.

(** Locals of [updateStars]. *)
Definition MAX_FORCE : F32.t := S754_finite false 10995116 (-40).
Definition MIN_BRIGHTNESS : F32.t := S754_finite false 13421773 (-27).
(** The literal [1e-5f] added to both distances. *)
Definition softening : F32.t := S754_finite false 10995116 (-40).

(** [M_PI] of <cmath>, a [double]. *)
Definition M_PI : spec_float := S754_finite false 7074237752028440 (-51).

(** The literals above are the roundings of their decimal texts. *)
Example dt_literal : dt = F32.decimal 24 128 31 (-2).
Proof. vm_compute. reflexivity. Qed.

Example G_literal : G = F32.of_double (F32.decimal 53 1024 667408 (-16)).
Proof. vm_compute. reflexivity. Qed.

Example CENTRAL_MASS_literal :
  CENTRAL_MASS = F32.of_double (F32.decimal 53 1024 2644 10).
Proof. vm_compute. reflexivity. Qed.

Example MAX_FORCE_literal : MAX_FORCE = F32.decimal 24 128 1 (-5).
Proof. vm_compute. reflexivity. Qed.

Example MIN_BRIGHTNESS_literal : MIN_BRIGHTNESS = F32.decimal 24 128 1 (-1).
Proof. vm_compute. reflexivity. Qed.

Example M_PI_literal :
  M_PI = F32.decimal 53 1024 314159265358979323846 (-20).
Proof. vm_compute. reflexivity. Qed.

Example one_literal : F32.one = F32.of_int 1 /\ F32.two = F32.of_int 2.
Proof. vm_compute. split; reflexivity. Qed.

(** ** Data model *)

Record Star : Type := mkStar {
  x : F32.t; y : F32.t;
  mass : F32.t;
  vx : F32.t; vy : F32.t;
  brightness : F32.t; opacity : F32.t
}.

(** ** The kernel [updateStars] *)

(** [calculateEscapeVelocity]: [sqrtf(2 * G * star->mass / distance)]. *)
Definition calculateEscapeVelocity (star : Star) (distance : F32.t) : F32.t :=
  F32.sqrtf (F32.of_int 2 * G * mass star / distance)%f32.

(** Lines 43-44: the brightness is stepped by a constant and clamped. *)
Definition brightness_step : F32.t :=
  (MAX_FORCE / F32.of_int (Z.quot SCREEN_WIDTH 2 * Z.quot SCREEN_HEIGHT 2))%f32.

Definition bump (b : F32.t) : F32.t :=
  F32.fminf (F32.fmaxf (b + brightness_step)%f32 MIN_BRIGHTNESS) F32.one.

(** Lines 39-48 of the loop body, once [dx] and [dy] are in registers:
    [si] is the slot of the thread, [sj] the slot of its partner. *)
Definition pair_body (dt : F32.t) (si : Star) (sj : Star) (dx dy : F32.t)
  : Star :=
  let dist := (F32.sqrtf (dx * dx + dy * dy) + softening)%f32 in
  let escapeVelocity := calculateEscapeVelocity sj dist in
  let distanceSquared := (dx * dx + dy * dy + softening)%f32 in
  let force := (G * mass sj * mass si / distanceSquared)%f32 in
  let b := bump (brightness si) in
  let ax := (force * (dx / F32.sqrtf distanceSquared) / mass si)%f32 in
  let ay := (force * (dy / F32.sqrtf distanceSquared) / mass si)%f32 in
  {| x := x si; y := y si; mass := mass si;
     vx := (vx si + ax * dt)%f32; vy := (vy si + ay * dt)%f32;
     brightness := b; opacity := opacity si |}.

(** The same body with line 40 (the escape velocity) taken out. *)
Definition pair_body_no_escape (dt : F32.t) (si : Star) (sj : Star)
    (dx dy : F32.t) : Star :=
  let distanceSquared := (dx * dx + dy * dy + softening)%f32 in
  let force := (G * mass sj * mass si / distanceSquared)%f32 in
  let b := bump (brightness si) in
  let ax := (force * (dx / F32.sqrtf distanceSquared) / mass si)%f32 in
  let ay := (force * (dy / F32.sqrtf distanceSquared) / mass si)%f32 in
  {| x := x si; y := y si; mass := mass si;
     vx := (vx si + ax * dt)%f32; vy := (vy si + ay * dt)%f32;
     brightness := b; opacity := opacity si |}.

(** Line 51: [stars[i].x += stars[i].vx * dt / 2]. *)
Definition advance_x (dt : F32.t) (si : Star) : Star :=
  {| x := (x si + vx si * dt / F32.of_int 2)%f32; y := y si; mass := mass si;
     vx := vx si; vy := vy si;
     brightness := brightness si; opacity := opacity si |}.

(** Line 52: [stars[i].y += stars[i].vy * dt / 2]. *)
Definition advance_y (dt : F32.t) (si : Star) : Star :=
  {| x := x si; y := (y si + vy si * dt / F32.of_int 2)%f32; mass := mass si;
     vx := vx si; vy := vy si;
     brightness := brightness si; opacity := opacity si |}.

(** *** Threads over the shared buffer

    A thread touches a slot that another thread writes only at lines 37
    and 38, where it reads [stars[j].x] and [stars[j].y]; these two reads
    are separate steps.  The rest of the body reads [stars[j].mass],
    which nobody writes, and the slot of the thread itself, so it is
    fused with the read of line 38.  Lines 51 and 52 are one step each. *)
Inductive pc : Type :=
| AtLoop (j : nat)               (** line 35: [j < numStars] is tested next *)
| AtDy (j : nat) (dx : F32.t)    (** line 37 is done, line 38 is next *)
| AtX                            (** the loop is over, line 51 is next *)
| AtY                            (** line 52 is next *)
| Done.

Record config : Type := mkConfig {
  mem : list Star;
  pcs : list pc
}.

Section Kernel.

(** The body of the pair loop, the arguments of the kernel and the
    number of threads of the grid. *)
Variable body : F32.t -> Star -> Star -> F32.t -> F32.t -> Star.
Variable numStars : nat.
Variable dt : F32.t.
Variable numThreadsTotal : nat.

(** One step of thread [i] at program counter [p]; [None] is an access
    outside the buffer. *)
Definition thread_step (i : nat) (p : pc) (stars : list Star)
  : option (list Star * pc) :=
  match p with
  | AtLoop j =>
      if j <? numStars then
        if i =? j then Some (stars, AtLoop (S j))
        else
          sj ← stars !! j;
          si ← stars !! i;
          Some (stars, AtDy j (x sj - x si)%f32)
      else Some (stars, AtX)
  | AtDy j dx =>
      sj ← stars !! j;
      si ← stars !! i;
      let dy := (y sj - y si)%f32 in
      Some (<[i := body dt si sj dx dy]> stars, AtLoop (S j))
  | AtX =>
      si ← stars !! i;
      Some (<[i := advance_x dt si]> stars, AtY)
  | AtY =>
      si ← stars !! i;
      Some (<[i := advance_y dt si]> stars, Done)
  | Done => Some (stars, Done)
  end.

(** The scheduler lets thread [i] take one step.  An index that names
    no thread, or a thread that has returned, leaves the state as it
    is. *)
Definition step (i : nat) (c : config) : option config :=
  match pcs c !! i with
  | None => Some c
  | Some p =>
      '(stars, p') ← thread_step i p (mem c);
      Some {| mem := stars; pcs := <[i := p']> (pcs c) |}
  end.

Fixpoint exec (sched : list nat) (c : config) : option config :=
  match sched with
  | [] => Some c
  | i :: sched' => c' ← step i c; exec sched' c'
  end.

(** Line 34: a thread whose index is not below [numStars] returns at
    once. *)
Definition entry (i : nat) : pc :=
  if i <? numStars then AtLoop 0 else Done.

Definition launch (stars : list Star) : config :=
  {| mem := stars; pcs := entry <$> seq 0 numThreadsTotal |}.

Definition is_done (p : pc) : bool :=
  match p with Done => true | _ => false end.

Definition finished (c : config) : bool := forallb is_done (pcs c).

(** The launch followed by [cudaDeviceSynchronize]: the host sees the
    buffer once every thread has returned. *)
Definition tick (sched : list nat) (stars : list Star)
  : option (list Star) :=
  c ← exec sched (launch stars);
  if finished c then Some (mem c) else None.

(** The schedule that runs the threads of [order] one after the other,
    each to its end: a thread needs at most [2 * numStars + 3] steps. *)
Definition serial (order : list nat) : list nat :=
  order ≫= (λ i, replicate (2 * numStars + 3) i).

(** The schedule that steps every thread in turn, so that all threads
    move through the loop together and write their positions last. *)
Definition lockstep : list nat :=
  replicate (2 * numStars + 3) (seq 0 numThreadsTotal) ≫= id.

End Kernel.

(** The kernel as it is in the source, and with line 40 taken out. *)
Definition updateStars := tick pair_body.
Definition updateStars_no_escape := tick pair_body_no_escape.

(** The grid of [main]: blocks of 512 threads covering [numStars]. *)
Definition numThreads : nat := 512.
Definition numBlocks (numStars : nat) : nat :=
  (numStars + numThreads - 1) / numThreads.
Definition grid (numStars : nat) : nat := numBlocks numStars * numThreads.

(** The loop of [main]: one launch per iteration, each with the schedule
    the device happens to follow. *)
Fixpoint run_ticks (numStars : nat) (dt : F32.t) (T : nat)
    (scheds : list (list nat)) (stars : list Star) : option (list Star) :=
  match scheds with
  | [] => Some stars
  | sched :: rest =>
      stars' ← updateStars numStars dt T sched stars;
      run_ticks numStars dt T rest stars'
  end.

(** ** The double-buffered evaluation

    The tick as the specification words it: every unit reads the store
    as it was when the tick started and writes its own slot of the
    result. *)
Definition snapshot_pair (dt : F32.t) (s0 : list Star) (i : nat)
    (si : Star) (j : nat) : Star :=
  if i =? j then si
  else match s0 !! j with
       | Some sj => pair_body dt si sj (x sj - x si)%f32 (y sj - y si)%f32
       | None => si
       end.

Definition snapshot_unit (numStars : nat) (dt : F32.t) (s0 : list Star)
    (i : nat) (si : Star) : Star :=
  advance_y dt (advance_x dt (foldl (snapshot_pair dt s0 i) si (seq 0 numStars))).

Definition updateStars_snapshot (numStars : nat) (dt : F32.t)
    (s0 : list Star) : list Star :=
  imap (λ i si, if i <? numStars then snapshot_unit numStars dt s0 i si else si)
       s0.

(** The pair contribution as the specification words it: the force over
    the mass of [i], times the displacement over the distance [d'] that
    gets its epsilon after the square root (the [dist] of line 39). *)
Definition spec_accel (si sj : Star) : F32.t * F32.t :=
  let dx := (x sj - x si)%f32 in
  let dy := (y sj - y si)%f32 in
  let d2 := (dx * dx + dy * dy + softening)%f32 in
  let d' := (F32.sqrtf (dx * dx + dy * dy) + softening)%f32 in
  let F := (G * mass sj * mass si / d2)%f32 in
  ((F / mass si * (dx / d'))%f32, (F / mass si * (dy / d'))%f32).

(** The pair contribution of lines 41-46. *)
Definition code_accel (si sj : Star) (dx dy : F32.t) : F32.t * F32.t :=
  let distanceSquared := (dx * dx + dy * dy + softening)%f32 in
  let force := (G * mass sj * mass si / distanceSquared)%f32 in
  ((force * (dx / F32.sqrtf distanceSquared) / mass si)%f32,
   (force * (dy / F32.sqrtf distanceSquared) / mass si)%f32).

(** ** What a unit has read

    The slot of a unit is the fold of the loop body over one observation
    per partner: a star that carries the position the unit read and the
    mass of the partner. *)
Definition look (dt : F32.t) (si o : Star) : Star :=
  pair_body dt si o (x o - x si)%f32 (y o - y si)%f32.

Definition accum (dt : F32.t) (si : Star) (obs : list Star) : Star :=
  foldl (look dt) si obs.

Definition partners (i j : nat) : list nat := filter (λ k, k ≠ i) (seq 0 j).

(** The loops are over and no position has been advanced yet. *)
Definition loops_over (numStars : nat) (c : config) : bool :=
  forallb (λ i, match pcs c !! i with Some AtX => true | _ => false end)
          (seq 0 numStars).

Definition in_range (b : F32.t) : Prop :=
  F32.leb MIN_BRIGHTNESS b = true /\ F32.leb b F32.one = true.

(** ** Construction of the store (lines 66-84 of [main]) *)

Section Construction.

(** [RAND_MAX] of <cstdlib>, the values that the calls of [rand()]
    return, in order, and [sinf] and [cosf] of the math library. *)
Variable RAND_MAX : Z.
Variable rand_values : nat -> Z.
Variables sinf cosf : F32.t -> F32.t.

Definition rand (g : nat) : Z * nat := (rand_values g, S g).

(** [static_cast<float>(rand()) / RAND_MAX] *)
Definition unit_draw (r : Z) : F32.t :=
  (F32.of_int r / F32.of_int RAND_MAX)%f32.

Definition radius_of (r : Z) : F32.t :=
  (unit_draw r * F32.of_int (Z.quot SCREEN_WIDTH 2) / F32.of_int 2)%f32.

(** The product with [M_PI] is a [double]; the assignment narrows it. *)
Definition angle_of (r : Z) : F32.t :=
  F32.of_double
    (SFmul 53 1024 (F32.to_double (unit_draw r * F32.two)%f32) M_PI).

(** [sqrt] at a [float]: the root in [double], narrowed, is the same
    number. *)
Definition circular_velocity (radius : F32.t) : F32.t :=
  F32.sqrtf (G * CENTRAL_MASS / radius)%f32.

(** [1 + static_cast<float>(rand())
         / static_cast<float>(RAND_MAX / (1e7 - 1e6))] *)
Definition mass_of (r : Z) : F32.t :=
  let span := SFsub 53 1024 (F32.decimal 53 1024 1 7) (F32.decimal 53 1024 1 6) in
  let scale := SFdiv 53 1024 (binary_normalize 53 1024 RAND_MAX 0 false) span in
  (F32.of_int 1 + F32.of_int r / F32.of_double scale)%f32.

(** One iteration of the loop of line 73.  [brightness] is not
    assigned: the slot keeps what the allocation held. *)
Definition init_star (offsetX offsetY : Z) (old : Star) (g : nat)
  : Star * nat :=
  let '(r, g) := rand g in
  let radius := radius_of r in
  let '(r, g) := rand g in
  let angle := angle_of r in
  let '(r, g) := rand g in
  let opacity' := unit_draw r in
  let x' := (F32.of_int (Z.quot SCREEN_WIDTH 2) + radius * cosf angle
             - F32.of_int offsetX)%f32 in
  let y' := (F32.of_int (Z.quot SCREEN_HEIGHT 2) + radius * sinf angle
             - F32.of_int offsetY)%f32 in
  let velocity := circular_velocity radius in
  let vx' := (- velocity * sinf angle)%f32 in
  let vy' := (velocity * cosf angle)%f32 in
  let '(r, g) := rand g in
  ({| x := x'; y := y'; mass := mass_of r; vx := vx'; vy := vy';
      brightness := brightness old; opacity := opacity' |}, g).

(** Lines 66-70: neither [brightness] nor [opacity] is assigned. *)
Definition init_central (old : Star) : Star :=
  {| x := F32.of_int (Z.quot SCREEN_WIDTH 2);
     y := F32.of_int (Z.quot SCREEN_HEIGHT 2);
     mass := CENTRAL_MASS;
     vx := F32.of_int 0; vy := F32.of_int 0;
     brightness := brightness old; opacity := opacity old |}.

Fixpoint init_loop (idx : list nat) (stars : list Star) (g : nat)
  : option (list Star * nat) :=
  match idx with
  | [] => Some (stars, g)
  | i :: idx' =>
      old ← stars !! i;
      let '(s, g') := init_star 0 0 old g in
      init_loop idx' (<[i := s]> stars) g'
  end.

(** [buf] is the allocation of [cudaMallocManaged], with whatever it
    holds. *)
Definition construct (numStars : nat) (buf : list Star)
  : option (list Star) :=
  old ← buf !! 0;
  '(stars, _) ← init_loop (seq 1 (numStars - 1))
                          (<[0 := init_central old]> buf) 0;
  Some stars.

End Construction.
(** ** Invariant of the executions of one launch *)

Section Invariant.

Variables (numStars : nat) (dt : F32.t).
Variable s0 : list Star.

(** An observation of partner [k]: its mass, and for each coordinate
    the value at the start of the tick or the value now in memory. *)
Definition seen_x (m : list Star) (k : nat) (xo : F32.t) : Prop :=
  ∃ s0k sk, s0 !! k = Some s0k ∧ m !! k = Some sk ∧
            (xo = x s0k ∨ xo = x sk).

Definition seen (m : list Star) (k : nat) (o : Star) : Prop :=
  ∃ s0k sk, s0 !! k = Some s0k ∧ m !! k = Some sk ∧
            mass o = mass s0k ∧
            (x o = x s0k ∨ x o = x sk) ∧ (y o = y s0k ∨ y o = y sk).

(** [a] is the slot [s0i] after the loop has handled the partners
    below [j]. *)
Definition reads (m : list Star) (i j : nat) (s0i a : Star) : Prop :=
  ∃ obs, Forall2 (seen m) (partners i j) obs ∧ a = accum dt s0i obs.

Definition thread_inv (m : list Star) (i : nat) (s0i si : Star) (p : pc)
  : Prop :=
  match p with
  | AtLoop j => i < numStars ∧ j ≤ numStars ∧ reads m i j s0i si
  | AtDy j dx =>
      i < numStars ∧ j < numStars ∧ i ≠ j ∧ reads m i j s0i si ∧
      ∃ xo, seen_x m j xo ∧ dx = (xo - x si)%f32
  | AtX => i < numStars ∧ reads m i numStars s0i si
  | AtY => i < numStars ∧
           ∃ a, reads m i numStars s0i a ∧ si = advance_x dt a
  | Done =>
      if decide (i < numStars)
      then ∃ a, reads m i numStars s0i a ∧
                si = advance_y dt (advance_x dt a)
      else si = s0i
  end.

Definition slot_inv (c : config) (i : nat) (s0i : Star) : Prop :=
  ∃ si, mem c !! i = Some si ∧
        match pcs c !! i with
        | None => si = s0i
        | Some p => thread_inv (mem c) i s0i si p
        end.

Definition Inv (c : config) : Prop :=
  length (mem c) = length s0 ∧
  (∀ i p, pcs c !! i = Some p → p ≠ Done → i < numStars) ∧
  (∀ i s0i, s0 !! i = Some s0i → slot_inv c i s0i).

End Invariant.

(** ** Predicates on floats *)

(** A zero, a finite number or an infinity that carries the sign [s]. *)
Inductive signed (s : bool) : spec_float -> Prop :=
| signed_zero : signed s (S754_zero s)
| signed_finite m e : signed s (S754_finite s m e)
| signed_infinity : signed s (S754_infinity s).

(** A NaN or a value whose sign bit is clear. *)
Definition nn (a : F32.t) : Prop := a = S754_nan \/ signed false a.

Definition is_zero (a : F32.t) : bool :=
  match a with S754_zero _ => true | _ => false end.

(** ** Progress of a thread *)

(** An upper bound of the number of steps that a thread still takes. *)
Definition remaining (numStars : nat) (p : pc) : nat :=
  match p with
  | AtLoop j => 2 * (numStars - j) + 3
  | AtDy j _ => 2 * (numStars - S j) + 4
  | AtX => 2
  | AtY => 1
  | Done => 0
  end.

(** The number of steps that a schedule grants to thread [i]. *)
Definition turns (i : nat) (sched : list nat) : nat :=
  length (filter (λ k, k = i) sched).

(** What a thread that was at [p1] when the loops were over has done to
    its slot once it is at [p]. *)
Definition moved (dt : F32.t) (p1 p : pc) : option (Star → Star) :=
  match p1, p with
  | AtX, AtX => Some id
  | AtX, AtY => Some (advance_x dt)
  | AtX, Done => Some (advance_y dt ∘ advance_x dt)
  | Done, Done => Some id
  | _, _ => None
  end.

Definition Post (dt : F32.t) (c1 c : config) : Prop :=
  ∀ i, match pcs c1 !! i with
       | None => pcs c !! i = None ∧ mem c !! i = mem c1 !! i
       | Some p1 =>
           ∃ p f, pcs c !! i = Some p ∧ moved dt p1 p = Some f ∧
                  mem c !! i = f <$> mem c1 !! i ∧
                  (p ≠ Done → is_Some (mem c1 !! i))
       end.

(** ** Executions and stores used below *)

(** [s1] runs every loop to its end and advances no position. *)
Definition phased (numStars : nat) (dt : F32.t) (T : nat) (s1 : list nat)
    (s0 : list Star) : bool :=
  match exec pair_body numStars dt s1 (launch numStars T s0) with
  | Some c1 => loops_over numStars c1
  | None => false
  end.

(** The velocity of a unit after one more observation. *)
Definition add_increment (dt : F32.t) (si : Star) (v : F32.t * F32.t)
    (o : Star) : F32.t * F32.t :=
  let a := code_accel si o (x o - x si)%f32 (y o - y si)%f32 in
  ((v.1 + a.1 * dt)%f32, (v.2 + a.2 * dt)%f32).

(** Two particles of mass [m] at rest at [(-r, 0)] and [(r, 0)]. *)
Definition two_body (r m b0 o0 b1 o1 : F32.t) : list Star :=
  [ mkStar (- r)%f32 F32.zero m F32.zero F32.zero b0 o0;
    mkStar r F32.zero m F32.zero F32.zero b1 o1 ].

(** Two particles of mass [1e12] at [(-1, 0)] and [(1, 0)]. *)
Definition heavy_pair : list Star :=
  two_body F32.one (F32.of_int (10 ^ 12)) F32.zero F32.zero F32.zero F32.zero.

(** Two particles of mass 1, one unit apart. *)
Definition unit_pair : list Star :=
  [ mkStar F32.zero F32.zero F32.one F32.zero F32.zero F32.zero F32.zero;
    mkStar F32.one F32.zero F32.one F32.zero F32.zero F32.zero F32.zero ].

(** The first steps of [lockstep 2 2], both loops and no write, and a
    schedule for the four writes. *)
Definition both_loops : list nat := [0; 1; 0; 1; 0; 1; 0; 1].
Definition both_writes : list nat := [0; 1; 0; 1].

(** The acceleration along the axis of the particle at [(-r, 0)] that
    [two_body r m] gets from its partner. *)
Definition two_body_accel (r m : F32.t) : F32.t :=
  (code_accel (mkStar (- r)%f32 F32.zero m F32.zero F32.zero F32.zero F32.zero)
              (mkStar r F32.zero m F32.zero F32.zero F32.zero F32.zero)
              (r - - r)%f32 F32.zero).1.

(** ** Lockstep executions *)

(** The number of steps that thread [i] takes from [p] to the end of its
    loop. *)
Definition loop_left (numStars i : nat) (p : pc) : nat :=
  match p with
  | AtLoop j =>
      2 * (numStars - j) + 1 - (if decide (j ≤ i < numStars) then 1 else 0)
  | AtDy j _ =>
      2 * (numStars - S j) + 2 - (if decide (S j ≤ i < numStars) then 1 else 0)
  | _ => 0
  end.

Definition in_loop (p : pc) : bool :=
  match p with AtLoop _ | AtDy _ _ => true | _ => false end.

(** One turn for each thread of the grid. *)
Definition round (T : nat) : list nat := seq 0 T.
Definition rounds (k T : nat) : list nat := replicate k (round T) ≫= id.

(** The state in which every unit has [m] steps of its loop left, and
    the threads below [a] one step less. *)
Definition aligned (numStars T a m : nat) (c : config) : Prop :=
  length (pcs c) = T ∧
  ∀ i, i < numStars → i < T →
       ∃ p, pcs c !! i = Some p ∧
            if decide (i < a)
            then loop_left numStars i p = m ∧
                 (if decide (m = 0) then p = AtX else in_loop p = true)
            else loop_left numStars i p = S m ∧ in_loop p = true.

(** ** The units run one after the other

    The loop that a single thread would run over the units of [order],
    each unit reading the store as the units before it have left it. *)
Definition unit_inplace (numStars : nat) (dt : F32.t) (m : list Star)
    (i : nat) : list Star :=
  if i <? numStars then
    match m !! i with
    | Some si => <[i := snapshot_unit numStars dt m i si]> m
    | None => m
    end
  else m.

Definition updateStars_sequential (numStars : nat) (dt : F32.t)
    (order : list nat) (s0 : list Star) : list Star :=
  foldl (unit_inplace numStars dt) s0 order.

(** ** A grid with surplus threads

    The second configuration has [k] threads more than the first one,
    all of which have returned. *)
Definition padded (k : nat) (c c' : config) : Prop :=
  mem c' = mem c ∧ pcs c' = pcs c ++ replicate k Done.

(** ** The window events (lines 88-132 of [main])

    [int] is taken as a 32-bit two's complement integer whose sums and
    differences wrap around, as the compiled code does; C++ itself
    leaves a signed overflow undefined. *)
Definition wrap32 (z : Z) : Z := ((z + 2 ^ 31) mod 2 ^ 32 - 2 ^ 31)%Z.

Inductive event_type : Type :=
| SDL_QUIT
| SDL_MOUSEBUTTONDOWN
| SDL_MOUSEBUTTONUP
| SDL_MOUSEMOTION
| SDL_MOUSEWHEEL
| SDL_KEYDOWN
| SDL_OTHER.

(** An event as the loop reads it: the members of the union [SDL_Event]
    that the code accesses, with the value each of them yields for this
    event, and what [SDL_GetMouseState] answers while the event is
    handled. *)
Record event : Type := mkEvent {
  ev_type : event_type;          (** [event.type] *)
  button_button : Z;             (** [event.button.button] *)
  button_x : Z;                  (** [event.button.x] *)
  button_y : Z;                  (** [event.button.y] *)
  key_sym : Z;                   (** [event.key.keysym.sym] *)
  mouse_state : Z * Z            (** [SDL_GetMouseState(&mouseX, &mouseY)] *)
}.

(** The locals of [main] that the events change. *)
Record ui : Type := mkUi {
  quit : bool;
  isDragging : bool;
  lastMouseX : Z; lastMouseY : Z;
  offsetX : Z; offsetY : Z;
  zoom : F32.t
}.

(** [1.01f] *)
Definition zoom_factor : F32.t := S754_finite false 8472494 (-23).

Example zoom_factor_literal : zoom_factor = F32.decimal 24 128 101 (-2).
Proof. vm_compute. reflexivity. Qed.

Section Events.

(** [SDL_BUTTON_LEFT], [SDLK_q] and [SDLK_a] of the SDL headers. *)
Variables SDL_BUTTON_LEFT SDLK_q SDLK_a : Z.

(** Lines 124-129, shared by three cases of the [switch]. *)
Definition on_key (e : event) (u : ui) : ui :=
  if (key_sym e =? SDLK_q)%Z then
    {| quit := quit u; isDragging := isDragging u;
       lastMouseX := lastMouseX u; lastMouseY := lastMouseY u;
       offsetX := offsetX u; offsetY := offsetY u;
       zoom := (zoom u * zoom_factor)%f32 |}
  else if (key_sym e =? SDLK_a)%Z then
    {| quit := quit u; isDragging := isDragging u;
       lastMouseX := lastMouseX u; lastMouseY := lastMouseY u;
       offsetX := offsetX u; offsetY := offsetY u;
       zoom := (zoom u / zoom_factor)%f32 |}
  else u.

(** Lines 112-121. *)
Definition on_motion (e : event) (u : ui) : ui :=
  if isDragging u then
    let '(mouseX, mouseY) := mouse_state e in
    {| quit := quit u; isDragging := isDragging u;
       lastMouseX := mouseX; lastMouseY := mouseY;
       offsetX := wrap32 (offsetX u + wrap32 (mouseX - lastMouseX u));
       offsetY := wrap32 (offsetY u + wrap32 (mouseY - lastMouseY u));
       zoom := zoom u |}
  else u.

(** The [switch] of line 95.  The case [SDL_MOUSEMOTION] has no [break]
    and runs on into the key case. *)
Definition handle (u : ui) (e : event) : ui :=
  match ev_type e with
  | SDL_QUIT =>
      {| quit := true; isDragging := isDragging u;
         lastMouseX := lastMouseX u; lastMouseY := lastMouseY u;
         offsetX := offsetX u; offsetY := offsetY u; zoom := zoom u |}
  | SDL_MOUSEBUTTONDOWN =>
      if (button_button e =? SDL_BUTTON_LEFT)%Z then
        {| quit := quit u; isDragging := true;
           lastMouseX := button_x e; lastMouseY := button_y e;
           offsetX := offsetX u; offsetY := offsetY u; zoom := zoom u |}
      else u
  | SDL_MOUSEBUTTONUP =>
      if (button_button e =? SDL_BUTTON_LEFT)%Z then
        {| quit := quit u; isDragging := false;
           lastMouseX := lastMouseX u; lastMouseY := lastMouseY u;
           offsetX := offsetX u; offsetY := offsetY u; zoom := zoom u |}
      else u
  | SDL_MOUSEMOTION => on_key e (on_motion e u)
  | SDL_MOUSEWHEEL | SDL_KEYDOWN => on_key e u
  | SDL_OTHER => u
  end.

(** The loop of line 94 over the events that are pending. *)
Definition poll (u : ui) (pending : list event) : ui := foldl handle u pending.

(** The locals at line 88-91; [lastMouseX] and [lastMouseY] are not
    initialised. *)
Definition ui_start (lastX lastY : Z) : ui :=
  {| quit := false; isDragging := false;
     lastMouseX := lastX; lastMouseY := lastY;
     offsetX := 0; offsetY := 0; zoom := F32.one |}.

(** The loop of line 92: every iteration polls the pending events, runs
    one tick and draws (drawing reads the store and the locals and
    changes neither). *)
Fixpoint main_loop (numStars : nat) (dt : F32.t) (T : nat)
    (frames : list (list event * list nat)) (u : ui) (stars : list Star)
  : option (ui * list Star) :=
  match frames with
  | [] => Some (u, stars)
  | (pending, sched) :: rest =>
      if quit u then Some (u, stars)
      else
        let u' := poll u pending in
        stars' ← updateStars numStars dt T sched stars;
        main_loop numStars dt T rest u' stars'
  end.

(** What the key case makes of a zoom. *)
Definition zoom_by (z : F32.t) (sym : Z) : F32.t :=
  if (sym =? SDLK_q)%Z then (z * zoom_factor)%f32
  else if (sym =? SDLK_a)%Z then (z / zoom_factor)%f32
  else z.

Definition reaches_key (e : event) : bool :=
  match ev_type e with
  | SDL_MOUSEMOTION | SDL_MOUSEWHEEL | SDL_KEYDOWN => true
  | _ => false
  end.

Definition is_quit (e : event) : bool :=
  match ev_type e with SDL_QUIT => true | _ => false end.

Definition starts_drag (e : event) : bool :=
  match ev_type e with
  | SDL_MOUSEBUTTONDOWN => (button_button e =? SDL_BUTTON_LEFT)%Z
  | _ => false
  end.

End Events.

(** * Properties *)

(** ** Facts of binary32 arithmetic *)

Section Rounding.

Variables prec emax : Z.

Lemma shr_1_nonneg mrs : (0 <= shr_m mrs)%Z -> (0 <= shr_m (shr_1 mrs))%Z.
Proof. destruct mrs as [[|[p|p|]|p] r s]; simpl; lia. Qed.

Lemma iter_shr_1_nonneg p mrs :
  (0 <= shr_m mrs)%Z -> (0 <= shr_m (SpecFloat.iter_pos shr_1 p mrs))%Z.
Proof.
  revert mrs; induction p as [p IH|p IH|]; intros mrs H; simpl.
  - apply IH, IH, shr_1_nonneg, H.
  - apply IH, IH, H.
  - apply shr_1_nonneg, H.
Qed.

Lemma shr_fexp_nonneg m e l :
  (0 <= m)%Z -> (0 <= shr_m (fst (shr_fexp prec emax m e l)))%Z.
Proof.
  intros H. unfold shr_fexp, shr.
  assert (H0 : (0 <= shr_m (shr_record_of_loc m l))%Z)
    by (destruct l as [|[]]; exact H).
  destruct (_ - e)%Z; simpl; auto using iter_shr_1_nonneg.
Qed.

Lemma round_nearest_even_nonneg m l :
  (0 <= m)%Z -> (0 <= round_nearest_even m l)%Z.
Proof. destruct l as [|[]]; simpl; try destruct (Z.even m); lia. Qed.

(** Rounding a non-negative mantissa gives a zero, a finite number or an
    infinity that carries the sign it was given. *)
Lemma binary_round_aux_signed s m e l :
  (0 <= m)%Z -> signed s (binary_round_aux prec emax s m e l).
Proof.
  intros H. unfold binary_round_aux.
  pose proof (shr_fexp_nonneg m e l H) as H1.
  destruct (shr_fexp prec emax m e l) as [mrs' e']. simpl in H1.
  pose proof (shr_fexp_nonneg _ e' loc_Exact
                (round_nearest_even_nonneg _ (loc_of_shr_record mrs') H1)) as H2.
  destruct (shr_fexp prec emax _ e' loc_Exact) as [mrs'' e'']. simpl in H2.
  destruct (shr_m mrs'') as [|p|p]; [constructor| |lia].
  destruct (_ <=? _)%Z; constructor.
Qed.

Lemma binary_round_aux_opp s m e l :
  SFopp (binary_round_aux prec emax s m e l)
  = binary_round_aux prec emax (negb s) m e l.
Proof.
  unfold binary_round_aux.
  destruct (shr_fexp prec emax m e l) as [mrs' e'].
  destruct (shr_fexp prec emax _ e' loc_Exact) as [mrs'' e''].
  destruct (shr_m mrs''); [reflexivity| |reflexivity].
  destruct (_ <=? _)%Z; reflexivity.
Qed.

Lemma binary_round_opp s m e :
  SFopp (binary_round prec emax s m e) = binary_round prec emax (negb s) m e.
Proof.
  unfold binary_round. destruct (shl_align _ _ _). apply binary_round_aux_opp.
Qed.

Lemma binary_round_signed s m e : signed s (binary_round prec emax s m e).
Proof.
  unfold binary_round. destruct (shl_align _ _ _).
  apply binary_round_aux_signed. lia.
Qed.

End Rounding.

Module F32Facts.

Import F32.

Lemma compare_antisym (a b : t) :
  SFcompare b a = CompOpp <$> SFcompare a b.
Proof.
  destruct a as [sa|sa| |sa ma ea], b as [sb|sb| |sb mb eb];
    try destruct sa; try destruct sb; try reflexivity; simpl;
    rewrite (Z.compare_antisym ea eb);
    destruct (ea ?= eb)%Z; simpl; try reflexivity;
    rewrite (Pos.compare_cont_antisym ma mb Eq); simpl;
    try rewrite CompOpp_involutive; reflexivity.
Qed.

Lemma compare_not_nan (a b : t) :
  is_nan a = false -> is_nan b = false -> is_Some (SFcompare a b).
Proof.
  destruct a as [sa|sa| |sa ma ea], b as [sb|sb| |sb mb eb];
    try discriminate; intros _ _; simpl;
    try destruct sa; try destruct sb; eauto.
Qed.

Lemma ltb_false_leb (a b : t) :
  is_nan a = false -> is_nan b = false -> ltb a b = false -> leb b a = true.
Proof.
  intros Ha Hb. unfold ltb, leb, SFltb, SFleb.
  rewrite (compare_antisym a b).
  destruct (compare_not_nan a b Ha Hb) as [c ->].
  destruct c; simpl; congruence.
Qed.

Lemma leb_not_nan (a b : t) : leb a b = true -> is_nan a = false /\ is_nan b = false.
Proof.
  destruct a as [sa|sa| |sa ma ea], b as [sb|sb| |sb mb eb];
    try discriminate; auto.
Qed.

(** [fmaxf] never goes below a bound that is a number, [fminf] never
    above. *)
Lemma fmaxf_lower (a lo : t) :
  is_nan lo = false ->
  fmaxf a lo = lo \/ (fmaxf a lo = a /\ is_nan a = false /\ leb lo a = true).
Proof.
  intros Hlo. unfold fmaxf.
  destruct (is_nan a) eqn:Ha; [now left|]. rewrite Hlo.
  destruct (ltb a lo) eqn:Hlt; [now left|].
  right. auto using ltb_false_leb.
Qed.

Lemma fminf_upper (a hi : t) :
  is_nan a = false -> is_nan hi = false ->
  fminf a hi = hi \/ (fminf a hi = a /\ leb a hi = true).
Proof.
  intros Ha Hhi. unfold fminf. rewrite Ha, Hhi.
  destruct (ltb hi a) eqn:Hlt; [now left|].
  right. auto using ltb_false_leb.
Qed.

(** *** Signs *)

Lemma mul_opp_l (a b : t) : (- a * b = - (a * b))%f32.
Proof.
  destruct a as [sa|sa| |sa ma ea], b as [sb|sb| |sb mb eb]; simpl;
    try reflexivity; try (destruct sa, sb; reflexivity).
  unfold mul, opp; simpl. rewrite binary_round_aux_opp.
  destruct sa, sb; reflexivity.
Qed.

Lemma mul_opp_r (a b : t) : (a * - b = - (a * b))%f32.
Proof.
  destruct a as [sa|sa| |sa ma ea], b as [sb|sb| |sb mb eb]; simpl;
    try reflexivity; try (destruct sa, sb; reflexivity).
  unfold mul, opp; simpl. rewrite binary_round_aux_opp.
  destruct sa, sb; reflexivity.
Qed.

Lemma opp_involutive (a : t) : (- - a = a)%f32.
Proof. destruct a as [s|s| |s m e]; simpl; try destruct s; reflexivity. Qed.

Lemma mul_opp_opp (a b : t) : (- a * - b = a * b)%f32.
Proof. rewrite mul_opp_l, mul_opp_r. apply opp_involutive. Qed.

Lemma div_opp_l (a b : t) : (- a / b = - (a / b))%f32.
Proof.
  destruct a as [sa|sa| |sa ma ea], b as [sb|sb| |sb mb eb]; simpl;
    try reflexivity; try (destruct sa, sb; reflexivity).
  unfold div, opp; simpl.
  destruct (SFdiv_core_binary _ _ _ _ _ _) as [[mz ez] lz].
  rewrite binary_round_aux_opp. destruct sa, sb; reflexivity.
Qed.

(** The two differences of a pair of mirrored positions. *)
Lemma sub_mirror (m : positive) (e : Z) :
  let r := S754_finite false m e in
  (- r - r = - (r - - r))%f32 /\ signed false (r - - r)%f32.
Proof.
  simpl. unfold sub, opp; simpl.
  destruct (shl_align m e (Z.min e e)) as [a ea]; simpl.
  split; [symmetry; apply binary_round_opp|apply binary_round_signed].
Qed.

End F32Facts.

Module F32Signs.
Import F32 F32Facts.

Lemma nn_signed a : signed false a -> nn a.
Proof. now right. Qed.

Ltac nn_cases :=
  repeat match goal with
    | H : nn _ |- _ => destruct H as [->|[]]
    end.

Lemma nn_mul a b : nn a -> nn b -> nn (a * b)%f32.
Proof.
  intros Ha Hb. nn_cases; try (now left); try (right; constructor).
  right. apply binary_round_aux_signed. lia.
Qed.

Lemma div_core_nonneg p em m1 e1 m2 e2 :
  (0 <= fst (fst (SFdiv_core_binary p em (Zpos m1) e1 (Zpos m2) e2)))%Z.
Proof.
  unfold SFdiv_core_binary.
  set (s := (_ - _ - _)%Z).
  set (m' := match s with Z0 => _ | Zpos _ => _ | Zneg _ => _ end).
  assert (Hm' : (0 <= m')%Z).
  { subst m'. destruct s; try lia. apply Z.shiftl_nonneg. lia. }
  pose proof (Z.div_pos m' (Zpos m2) Hm' eq_refl) as Hq.
  unfold Z.div in Hq.
  destruct (Z.div_eucl m' (Zpos m2)) as [q r]. exact Hq.
Qed.

Lemma nn_div a b : nn a -> nn b -> nn (a / b)%f32.
Proof.
  intros [->|[|ma ea|]] [->|[|mb eb|]];
    try (now left); try (right; constructor).
  right. unfold div; simpl.
  pose proof (div_core_nonneg prec emax ma ea mb eb) as H.
  destruct (SFdiv_core_binary _ _ _ _ _ _) as [[mz ez] lz].
  apply binary_round_aux_signed. exact H.
Qed.

Lemma nn_add a b : nn a -> nn b -> nn (a + b)%f32.
Proof.
  intros Ha Hb. nn_cases; try (now left); try (right; constructor).
  right. unfold add; simpl. apply binary_round_signed.
Qed.

Lemma sqrt_core_nonneg p em m e :
  (0 <= fst (fst (SFsqrt_core_binary p em (Zpos m) e)))%Z.
Proof.
  unfold SFsqrt_core_binary.
  set (s := (e - _)%Z).
  set (m' := match s with Z0 => _ | Zpos _ => _ | Zneg _ => _ end).
  assert (Hm' : (0 <= m')%Z).
  { subst m'. destruct s; try lia. apply Z.shiftl_nonneg. lia. }
  pose proof (Z.sqrtrem_spec m' Hm') as H.
  destruct (Z.sqrtrem m') as [q r]. simpl. nia.
Qed.

Lemma nn_sqrt a : nn a -> nn (sqrtf a).
Proof.
  intros [->|[|m e|]]; try (now left); try (right; constructor).
  right. unfold sqrtf; simpl.
  pose proof (sqrt_core_nonneg prec emax m e) as H.
  destruct (SFsqrt_core_binary _ _ _ _) as [[mz ez] lz].
  apply binary_round_aux_signed. exact H.
Qed.

Lemma leb_zero_signed a : signed false a -> leb zero a = true.
Proof. now intros []. Qed.

(** *** Finite results come from finite operands *)

Lemma mul_finite_inv a b :
  is_finite (a * b)%f32 = true -> is_finite a = true /\ is_finite b = true.
Proof.
  destruct a as [sa|sa| |sa ma ea], b as [sb|sb| |sb mb eb];
    simpl; try discriminate; auto.
Qed.

Lemma div_finite_inv a b :
  is_finite (a / b)%f32 = true ->
  is_finite a = true /\ is_nan b = false /\ is_zero b = false.
Proof.
  destruct a as [sa|sa| |sa ma ea], b as [sb|sb| |sb mb eb];
    simpl; try discriminate; auto.
Qed.

Lemma mul_zero_r a b :
  is_finite a = true -> is_zero b = true -> is_zero (a * b)%f32 = true.
Proof. destruct a, b; simpl; try discriminate; auto. Qed.

Lemma mul_zero_l a b :
  is_zero a = true -> is_finite b = true -> is_zero (a * b)%f32 = true.
Proof. destruct a, b; simpl; try discriminate; auto. Qed.

Lemma zero_add a : is_zero a = true -> (zero + a)%f32 = zero.
Proof. destruct a as [[]| | |]; simpl; try discriminate; auto. Qed.

(** A velocity that starts from zero, and its mirror image. *)
Lemma zero_add_mirror a :
  signed false a ->
  signed false (zero + a)%f32 /\
  ((zero + - a)%f32 = (- (zero + a))%f32
   \/ ((zero + a)%f32 = zero /\ (zero + - a)%f32 = zero)).
Proof. intros []; simpl; (split; [constructor|auto]). Qed.

End F32Signs.

(** *** The clamp of line 44 *)

Lemma bump_range (b : F32.t) : in_range (bump b).
Proof.
  unfold bump, in_range.
  destruct (F32Facts.fmaxf_lower (b + brightness_step)%f32 MIN_BRIGHTNESS eq_refl)
    as [->|(-> & Hnan & Hlo)].
  - vm_compute. auto.
  - destruct (F32Facts.fminf_upper (b + brightness_step)%f32 F32.one Hnan eq_refl)
      as [->|[-> Hhi]]; auto.
Qed.

(** ** The fold of the loop body *)

Section Accum.

Variable dt : F32.t.

Lemma accum_snoc si obs o :
  accum dt si (obs ++ [o]) = look dt (accum dt si obs) o.
Proof. apply foldl_snoc. Qed.

Lemma accum_frame si obs :
  x (accum dt si obs) = x si ∧ y (accum dt si obs) = y si ∧
  mass (accum dt si obs) = mass si ∧ opacity (accum dt si obs) = opacity si.
Proof.
  induction obs as [|o obs IH] using rev_ind; [done|].
  rewrite accum_snoc. exact IH.
Qed.

Lemma accum_brightness si obs :
  brightness (accum dt si obs) = Nat.iter (length obs) bump (brightness si).
Proof.
  induction obs as [|o obs IH] using rev_ind; [done|].
  rewrite accum_snoc, length_app, Nat.add_comm. simpl. now rewrite <- IH.
Qed.

(** Only the position and the mass of an observation matter. *)
Lemma accum_ext si obs obs' :
  Forall2 (λ o o', x o = x o' ∧ y o = y o' ∧ mass o = mass o') obs obs' →
  accum dt si obs = accum dt si obs'.
Proof.
  intros H. revert si. induction H as [|o o' obs obs' (Hx & Hy & Hm) _ IH];
    intros si; [done|].
  simpl. rewrite <- IH. f_equal.
  unfold look, pair_body. rewrite Hx, Hy, Hm. reflexivity.
Qed.

End Accum.

Lemma partners_S_self i : partners i (S i) = partners i i.
Proof.
  unfold partners. rewrite seq_S, filter_app. simpl.
  rewrite filter_cons_False by (intros H; now apply H).
  now rewrite filter_nil, app_nil_r.
Qed.

Lemma partners_S_ne i j : i ≠ j → partners i (S j) = partners i j ++ [j].
Proof.
  intros H. unfold partners. rewrite seq_S, filter_app. simpl.
  now rewrite filter_cons_True by (intros ->; now apply H).
Qed.

Lemma partners_length i n : i < n → length (partners i n) = n - 1.
Proof.
  intros Hi. induction n as [|n IH]; [lia|].
  destruct (decide (i = n)) as [->|Hne].
  - rewrite partners_S_self. clear IH Hi.
    assert (H : ∀ k, k ≤ n → partners n k = seq 0 k).
    { induction k as [|k IHk]; [done|]. intros Hk.
      rewrite partners_S_ne by lia. rewrite IHk by lia. now rewrite seq_S. }
    rewrite H by lia. rewrite length_seq. lia.
  - rewrite partners_S_ne by done. rewrite length_app, IH by lia. simpl. lia.
Qed.

Lemma Forall2_below {A} (P : nat → A → Prop) i n (obs : list A) :
  Forall2 P (partners i n) obs →
  Forall2 (λ k o, k < n ∧ P k o) (partners i n) obs.
Proof.
  assert (H : Forall (λ k, k < n) (partners i n)).
  { apply Forall_forall. intros k [_ Hk%elem_of_seq]%list_elem_of_filter. lia. }
  revert H. generalize (partners i n) as ks. intros ks H HF.
  induction HF as [|k o ks obs HP _ IH]; [constructor|].
  apply Forall_cons in H as [Hk H]. constructor; auto.
Qed.

Section InvariantFacts.

Variables (numStars : nat) (dt : F32.t).
Variable s0 : list Star.

Abbreviation seen := (seen s0).
Abbreviation seen_x := (seen_x s0).
Abbreviation reads := (reads dt s0).
Abbreviation thread_inv := (thread_inv numStars dt s0).
Abbreviation Inv := (Inv numStars dt s0).
Abbreviation kstep := (step pair_body numStars dt).
Abbreviation kexec := (exec pair_body numStars dt).

Lemma reads_frame m i j s0i a :
  reads m i j s0i a →
  x a = x s0i ∧ y a = y s0i ∧ mass a = mass s0i ∧ opacity a = opacity s0i.
Proof. intros (obs & _ & ->). apply accum_frame. Qed.

(** What the invariant says of a slot whatever its thread does. *)
Lemma thread_inv_frame m i s0i si p :
  thread_inv m i s0i si p →
  mass si = mass s0i ∧ opacity si = opacity s0i ∧
  (match p with AtLoop _ | AtDy _ _ | AtX => x si = x s0i | _ => True end) ∧
  (match p with AtY | Done => True | _ => y si = y s0i end).
Proof.
  destruct p as [j|j dx| | |]; simpl.
  - intros (_ & _ & H). apply reads_frame in H. tauto.
  - intros (_ & _ & _ & H & _). apply reads_frame in H. tauto.
  - intros (_ & H). apply reads_frame in H. tauto.
  - intros (_ & a & H & ->). apply reads_frame in H. simpl. tauto.
  - case_decide.
    + intros (a & Hr & ->). apply reads_frame in Hr. simpl. tauto.
    + intros ->. tauto.
Qed.

Lemma slot_inv_frame c i s0i :
  slot_inv numStars dt s0 c i s0i →
  ∃ si, mem c !! i = Some si ∧ mass si = mass s0i ∧ opacity si = opacity s0i.
Proof.
  intros (si & Hsi & H). exists si. split; [done|].
  destruct (pcs c !! i) as [p|].
  - apply thread_inv_frame in H. tauto.
  - now subst.
Qed.

(** A write of thread [t] to its slot keeps every observation valid,
    as long as each coordinate is written at most once. *)
Section SlotWrite.

Variables (m : list Star) (t : nat) (s0t st st' : Star).
Hypothesis Hs0t : s0 !! t = Some s0t.
Hypothesis Hst : m !! t = Some st.
Hypothesis Hx : x st' = x st ∨ x st = x s0t.
Hypothesis Hy : y st' = y st ∨ y st = y s0t.

Lemma seen_x_write k xo : seen_x m k xo → seen_x (<[t := st']> m) k xo.
Proof.
  intros (s0k & sk & H0 & Hm & H).
  destruct (decide (k = t)) as [->|Hne].
  - exists s0t, st'. rewrite list_lookup_insert_eq by eauto using lookup_lt_Some.
    simplify_eq. intuition congruence.
  - exists s0k, sk. rewrite list_lookup_insert_ne by done. tauto.
Qed.

Lemma seen_write k o : seen m k o → seen (<[t := st']> m) k o.
Proof.
  intros (s0k & sk & H0 & Hm & Hmass & H1 & H2).
  destruct (decide (k = t)) as [->|Hne].
  - exists s0t, st'. rewrite list_lookup_insert_eq by eauto using lookup_lt_Some.
    simplify_eq. intuition congruence.
  - exists s0k, sk. rewrite list_lookup_insert_ne by done. tauto.
Qed.

Lemma reads_write i j s0i a :
  reads m i j s0i a → reads (<[t := st']> m) i j s0i a.
Proof.
  intros (obs & H & ->). exists obs. split; [|done].
  eapply Forall2_impl; [exact H|]. auto using seen_write.
Qed.

Lemma thread_inv_write i s0i si p :
  thread_inv m i s0i si p → thread_inv (<[t := st']> m) i s0i si p.
Proof.
  destruct p as [j|j dx| | |]; simpl.
  - intros (? & ? & ?). eauto using reads_write.
  - intros (? & ? & ? & ? & xo & ? & ?).
    repeat split; eauto using reads_write, seen_x_write.
  - intros (? & ?). eauto using reads_write.
  - intros (? & a & ? & ?). eauto using reads_write.
  - case_decide; [|done]. intros (a & ? & ?). eauto using reads_write.
Qed.

End SlotWrite.

(** Thread [t] replaces its slot and moves to [p']. *)
Lemma Inv_write c t p s0t st st' p' :
  Inv c → pcs c !! t = Some p →
  s0 !! t = Some s0t → mem c !! t = Some st →
  (x st' = x st ∨ x st = x s0t) → (y st' = y st ∨ y st = y s0t) →
  (p' ≠ Done → t < numStars) →
  thread_inv (<[t := st']> (mem c)) t s0t st' p' →
  Inv {| mem := <[t := st']> (mem c); pcs := <[t := p']> (pcs c) |}.
Proof.
  intros (Hlen & Hact & Hslots) Hp Hs0t Hst Hx Hy Hp' Hnew.
  split; [|split]; simpl.
  - now rewrite length_insert.
  - intros i q. destruct (decide (i = t)) as [->|Hne].
    + rewrite list_lookup_insert_eq by eauto using lookup_lt_Some.
      intros [= <-]. exact Hp'.
    + rewrite list_lookup_insert_ne by done. apply Hact.
  - intros i s0i Hs0i. unfold slot_inv; simpl.
    destruct (decide (i = t)) as [->|Hne].
    + exists st'.
      rewrite !list_lookup_insert_eq by eauto using lookup_lt_Some.
      simplify_eq. done.
    + rewrite !list_lookup_insert_ne by done.
      destruct (Hslots i s0i Hs0i) as (si & Hsi & H). exists si.
      split; [done|]. destruct (pcs c !! i); [|done].
      eauto using thread_inv_write.
Qed.

(** Thread [t] moves to [p'] and writes nothing. *)
Lemma Inv_goto c t p s0t st p' :
  Inv c → pcs c !! t = Some p →
  s0 !! t = Some s0t → mem c !! t = Some st →
  (p' ≠ Done → t < numStars) →
  thread_inv (mem c) t s0t st p' →
  Inv {| mem := mem c; pcs := <[t := p']> (pcs c) |}.
Proof.
  intros HI Hp Hs0t Hst Hp' Hnew.
  pose proof (Inv_write c t p s0t st st p' HI Hp Hs0t Hst) as H.
  rewrite (list_insert_id (mem c) t st Hst) in H. auto.
Qed.

Lemma Inv_lookup c j :
  numStars ≤ length s0 → Inv c → j < numStars →
  ∃ s0j sj, s0 !! j = Some s0j ∧ mem c !! j = Some sj ∧ mass sj = mass s0j.
Proof.
  intros Hn (_ & _ & Hslots) Hj.
  destruct (lookup_lt_is_Some_2 s0 j) as [s0j Hs0j]; [lia|].
  destruct (slot_inv_frame _ _ _ (Hslots j s0j Hs0j)) as (sj & ? & ? & _).
  eauto.
Qed.

(** Every step of every thread is within the buffer and keeps the
    invariant. *)
Lemma step_Inv c t :
  numStars ≤ length s0 → Inv c → ∃ c', kstep t c = Some c' ∧ Inv c'.
Proof.
  intros Hn HI. unfold step.
  destruct (pcs c !! t) as [p|] eqn:Hp; [|eauto].
  assert (Hdone : p = Done ∨ p ≠ Done) by (destruct p; auto).
  destruct Hdone as [->|Hnd].
  { simpl. eexists; split; [reflexivity|].
    rewrite list_insert_id by done. now destruct c. }
  assert (Ht : t < numStars) by (destruct HI as (_ & Hact & _); eauto).
  pose proof HI as (Hlen & Hact & Hslots).
  destruct (lookup_lt_is_Some_2 s0 t) as [s0t Hs0t]; [lia|].
  destruct (Hslots t s0t Hs0t) as (st & Hst & Hti). rewrite Hp in Hti.
  destruct p as [j|j dx| | |]; simpl in Hti |- *; [| | | |done].
  - destruct Hti as (_ & Hj & Hr).
    destruct (Nat.ltb_spec j numStars) as [Hlt|Hge].
    + destruct (Nat.eqb_spec t j) as [<-|Hne]; simpl.
      * eexists; split; [reflexivity|].
        eapply Inv_goto; eauto. simpl. unfold reads.
        rewrite partners_S_self. auto.
      * destruct (Inv_lookup c j Hn HI Hlt) as (s0j & sj & Hs0j & Hsj & _).
        rewrite Hsj, Hst; simpl.
        eexists; split; [reflexivity|].
        eapply Inv_goto; eauto. simpl. repeat split; auto.
        exists (x sj). split; [|done]. exists s0j, sj. auto.
    + simpl. eexists; split; [reflexivity|].
      eapply Inv_goto; eauto. simpl.
      assert (j = numStars) as -> by lia. auto.
  - destruct Hti as (_ & Hj & Hne & (obs & Hobs & Hacc) & xo & Hxo & ->).
    destruct (Inv_lookup c j Hn HI Hj) as (s0j & sj & Hs0j & Hsj & Hmj).
    rewrite Hsj, Hst; simpl.
    eexists; split; [reflexivity|].
    eapply Inv_write; eauto. simpl. repeat split; [done|lia|].
    set (o := {| x := xo; y := y sj; mass := mass sj; vx := vx sj;
                 vy := vy sj; brightness := brightness sj;
                 opacity := opacity sj |}).
    exists (obs ++ [o]). split.
    + rewrite partners_S_ne by done. apply Forall2_app.
      * eapply Forall2_impl; [exact Hobs|].
        intros k o'. eapply seen_write; eauto.
      * constructor; [|constructor].
        destruct Hxo as (s0j' & sj' & E0 & E1 & Hxo).
        rewrite Hs0j in E0. rewrite Hsj in E1.
        injection E0 as <-. injection E1 as <-.
        exists s0j, sj. rewrite list_lookup_insert_ne by done.
        simpl. repeat split; auto.
    + rewrite accum_snoc, <- Hacc. reflexivity.
  - destruct Hti as (_ & Hr). rewrite Hst; simpl.
    eexists; split; [reflexivity|].
    destruct (reads_frame _ _ _ _ _ Hr) as (Hx & _).
    eapply Inv_write; eauto. simpl. split; [done|].
    exists st. split; [|done]. eapply reads_write; eauto.
  - destruct Hti as (_ & a & Hr & Ha). rewrite Hst; simpl.
    eexists; split; [reflexivity|].
    destruct (reads_frame _ _ _ _ _ Hr) as (_ & Hy & _).
    eapply Inv_write; eauto.
    { right. subst st. exact Hy. }
    simpl. case_decide; [|lia].
    exists a. split; [|now subst].
    eapply reads_write; eauto. right. subst st. exact Hy.
Qed.

End InvariantFacts.

Section Executions.

Variables (numStars : nat) (dt : F32.t) (T : nat).
Variable s0 : list Star.

Abbreviation Inv := (Inv numStars dt s0).
Abbreviation kstep := (step pair_body numStars dt).
Abbreviation kexec := (exec pair_body numStars dt).
Abbreviation klaunch := (launch numStars T).

Lemma launch_pcs i :
  pcs (klaunch s0) !! i = if decide (i < T) then Some (entry numStars i) else None.
Proof.
  unfold launch; simpl. rewrite list_lookup_fmap.
  case_decide.
  - now rewrite lookup_seq_lt.
  - now rewrite lookup_seq_ge by lia.
Qed.

Lemma launch_Inv : Inv (klaunch s0).
Proof.
  split; [done|split].
  - intros i p. rewrite launch_pcs. case_decide; [|done].
    intros [= <-]. unfold entry. destruct (Nat.ltb_spec i numStars); done.
  - intros i s0i Hi. exists s0i. split; [done|].
    rewrite launch_pcs. case_decide; [|done].
    unfold entry. destruct (Nat.ltb_spec i numStars); simpl.
    + repeat split; [done|lia|]. exists []. split; [constructor|done].
    + case_decide; [lia|done].
Qed.

Lemma exec_Inv sched c :
  numStars ≤ length s0 → Inv c → ∃ c', kexec sched c = Some c' ∧ Inv c'.
Proof.
  intros Hn. revert c.
  induction sched as [|t sched IH]; intros c HI; simpl; [eauto|].
  destruct (step_Inv numStars dt s0 c t Hn HI) as (c1 & -> & HI1).
  simpl. auto.
Qed.

Lemma exec_Inv_Some sched c c' :
  numStars ≤ length s0 → Inv c → kexec sched c = Some c' → Inv c'.
Proof.
  intros Hn HI H.
  destruct (exec_Inv sched c Hn HI) as (c'' & E & ?). congruence.
Qed.

Lemma exec_app s1 s2 c :
  kexec (s1 ++ s2) c = kexec s1 c ≫= kexec s2.
Proof.
  revert c. induction s1 as [|t s1 IH]; intros c; simpl; [done|].
  destruct (kstep t c); simpl; auto.
Qed.

(** *** Progress *)

Lemma step_pcs t c c' :
  kstep t c = Some c' →
  match pcs c !! t with
  | None => c' = c
  | Some p => ∃ p', pcs c' = <[t := p']> (pcs c) ∧
                    remaining numStars p' ≤ remaining numStars p - 1
  end.
Proof.
  unfold step. destruct (pcs c !! t) as [p|]; [|congruence].
  destruct p as [j|j dx| | |]; simpl.
  - destruct (Nat.ltb_spec j numStars).
    + destruct (Nat.eqb_spec t j); simpl.
      * intros [= <-]. eexists; split; [done|]. simpl. lia.
      * destruct (mem c !! j); simpl; [|done].
        destruct (mem c !! t); simpl; [|done].
        intros [= <-]. eexists; split; [done|]. simpl. lia.
    + simpl. intros [= <-]. eexists; split; [done|]. simpl. lia.
  - destruct (mem c !! j); simpl; [|done].
    destruct (mem c !! t); simpl; [|done].
    intros [= <-]. eexists; split; [done|]. simpl. lia.
  - destruct (mem c !! t); simpl; [|done].
    intros [= <-]. eexists; split; [done|]. simpl. lia.
  - destruct (mem c !! t); simpl; [|done].
    intros [= <-]. eexists; split; [done|]. simpl. lia.
  - intros [= <-]. exists Done. split; [done|]. simpl. lia.
Qed.

Lemma exec_progress sched c c' i p :
  kexec sched c = Some c' → pcs c !! i = Some p →
  ∃ p', pcs c' !! i = Some p' ∧
        remaining numStars p' ≤ remaining numStars p - turns i sched.
Proof.
  revert c p. induction sched as [|t sched IH]; intros c p; simpl.
  - intros [= <-] Hp. exists p. split; [done|]. unfold turns; simpl. lia.
  - destruct (kstep t c) as [c1|] eqn:Hstep; simpl; [|done].
    intros Hexec Hp. apply step_pcs in Hstep.
    unfold turns in *. rewrite filter_cons.
    destruct (decide (t = i)) as [->|Hne]; simpl.
    + rewrite Hp in Hstep. destruct Hstep as (p1 & Hpcs & Hrem).
      destruct (IH c1 p1 Hexec) as (p' & ? & ?).
      { rewrite Hpcs. apply list_lookup_insert_eq. eauto using lookup_lt_Some. }
      exists p'. split; [done|]. lia.
    + apply (IH c1 p Hexec).
      destruct (pcs c !! t).
      * destruct Hstep as (p1 & -> & _). now rewrite list_lookup_insert_ne.
      * now subst.
Qed.

Lemma remaining_0 p : remaining numStars p = 0 → p = Done.
Proof. destruct p; simpl; (done || lia). Qed.

(** A schedule that grants every unit [2 * numStars + 3] steps brings
    every thread to its end. *)
Lemma exec_finished sched c :
  (∀ i, i < numStars → i < T → 2 * numStars + 3 ≤ turns i sched) →
  kexec sched (klaunch s0) = Some c → finished c = true.
Proof.
  intros Hfair Hexec. unfold finished. apply Is_true_true, forallb_True.
  apply Forall_lookup. intros i p Hp.
  destruct (decide (i < T)) as [Hi|Hi].
  - destruct (exec_progress sched _ c i (entry numStars i) Hexec)
      as (p' & Hp' & Hrem).
    { rewrite launch_pcs. now case_decide. }
    assert (p' = p) as -> by congruence.
    enough (p = Done) as -> by done. apply remaining_0.
    unfold entry in Hrem. destruct (Nat.ltb_spec i numStars) as [Hlt|Hge].
    + specialize (Hfair i Hlt Hi). simpl in Hrem. lia.
    + simpl in Hrem. lia.
  - exfalso. apply Hi.
    assert (Hlen : length (pcs c) = T).
    { clear -Hexec. revert Hexec.
      assert (HT : length (pcs (klaunch s0)) = T)
        by (unfold launch; simpl; now rewrite length_fmap, length_seq).
      revert HT. generalize (klaunch s0) as c0. revert c.
      induction sched as [|t sched IH]; intros c c0 HT; simpl.
      - now intros [= <-].
      - destruct (kstep t c0) as [c1|] eqn:Hstep; simpl; [|done].
        apply IH. apply step_pcs in Hstep. destruct (pcs c0 !! t).
        + destruct Hstep as (p1 & -> & _). now rewrite length_insert.
        + now subst. }
    rewrite <- Hlen. eauto using lookup_lt_Some.
Qed.

Lemma turns_app i s1 s2 : turns i (s1 ++ s2) = turns i s1 + turns i s2.
Proof. unfold turns. now rewrite filter_app, length_app. Qed.

Lemma turns_replicate i k t :
  turns i (replicate k t) = if decide (t = i) then k else 0.
Proof.
  unfold turns. destruct (decide (t = i)) as [Heq|Hne].
  - induction k as [|k IH]; simpl; [done|].
    rewrite filter_cons_True by done. simpl. now rewrite IH.
  - induction k as [|k IH]; simpl; [done|].
    now rewrite filter_cons_False by done.
Qed.

Lemma turns_serial i order :
  i ∈ order → 2 * numStars + 3 ≤ turns i (serial numStars order).
Proof.
  unfold serial. induction order as [|t order IH].
  { intros H. now apply elem_of_nil in H. }
  rewrite bind_cons, turns_app, turns_replicate.
  intros [->|Hin]%elem_of_cons.
  - case_decide; [lia|done].
  - specialize (IH Hin). lia.
Qed.

Lemma turns_lockstep i :
  i < T → 2 * numStars + 3 ≤ turns i (lockstep numStars T).
Proof.
  intros Hi. unfold lockstep. generalize (2 * numStars + 3) as k.
  induction k as [|k IH]; [simpl; lia|].
  change (replicate (S k) (seq 0 T)) with (seq 0 T :: replicate k (seq 0 T)).
  rewrite bind_cons, turns_app. unfold id at 1.
  enough (1 ≤ turns i (seq 0 T)) by lia.
  clear IH. unfold turns.
  assert (Hin : i ∈ filter (λ k, k = i) (seq 0 T)).
  { apply list_elem_of_filter. split; [done|]. apply elem_of_seq. lia. }
  destruct (filter _ _); [now apply elem_of_nil in Hin|simpl; lia].
Qed.

End Executions.

Section Phased.

Variables (numStars : nat) (dt : F32.t) (T : nat).
Variable s0 : list Star.

Abbreviation Inv := (Inv numStars dt s0).
Abbreviation kstep := (step pair_body numStars dt).
Abbreviation kexec := (exec pair_body numStars dt).
Abbreviation klaunch := (launch numStars T).

(** *** After the loops *)

Lemma Post_step c1 c t c' :
  Post dt c1 c → kstep t c = Some c' → Post dt c1 c'.
Proof.
  intros HP. unfold step.
  destruct (pcs c !! t) as [p|] eqn:Hp; [|now intros [= <-]].
  pose proof (HP t) as Ht.
  destruct (pcs c1 !! t) as [p1|] eqn:Hp1; [|destruct Ht; congruence].
  destruct Ht as (p' & f & Hp' & Hf & Hm & Hs).
  assert (p' = p) as -> by congruence.
  assert (Hlt : t < length (pcs c)) by eauto using lookup_lt_Some.
  assert (Hstep : ∀ st' q g,
             moved dt p1 q = Some g → (q ≠ Done → is_Some (mem c1 !! t)) →
             (∀ s1, mem c1 !! t = Some s1 → st' = g s1) →
             Post dt c1 {| mem := <[t := st']> (mem c);
                           pcs := <[t := q]> (pcs c) |}).
  { intros st' q g Hg Hq Hst' i. specialize (HP i). simpl.
    destruct (decide (i = t)) as [->|Hne].
    - rewrite Hp1. exists q, g.
      rewrite list_lookup_insert_eq by done. repeat split; [done| |done].
      destruct (mem c1 !! t) as [s1|] eqn:Hs1; simpl in *.
      + rewrite list_lookup_insert_eq; [by rewrite (Hst' s1)|].
        apply lookup_lt_is_Some. rewrite Hm. eauto.
      + rewrite list_insert_ge; [by rewrite Hm|].
        apply lookup_ge_None. by rewrite Hm.
    - rewrite !list_lookup_insert_ne by done. exact HP. }
  destruct p1 as [| | | |], p as [| | | |]; try discriminate Hf; simpl.
  - injection Hf as <-.
    destruct Hs as [s1 Hs1]; [done|]. rewrite Hm, Hs1. simpl.
    intros [= <-].
    apply (Hstep _ AtY (advance_x dt)); [done|eauto|congruence].
  - injection Hf as <-.
    destruct Hs as [s1 Hs1]; [done|]. rewrite Hm, Hs1. simpl.
    intros [= <-].
    apply (Hstep _ Done (advance_y dt ∘ advance_x dt)); [done|done|].
    intros s1' ?. simpl. congruence.
  - intros [= <-]. rewrite list_insert_id by done. now destruct c.
  - intros [= <-]. rewrite list_insert_id by done. now destruct c.
Qed.

Lemma Post_exec c1 sched c c' :
  Post dt c1 c → kexec sched c = Some c' → Post dt c1 c'.
Proof.
  revert c. induction sched as [|t sched IH]; intros c HP; simpl.
  - now intros [= <-].
  - destruct (kstep t c) as [c2|] eqn:Hstep; simpl; [|done].
    eauto using Post_step.
Qed.

Lemma Post_refl c :
  (∀ i p, pcs c !! i = Some p → p = Done ∨ (p = AtX ∧ is_Some (mem c !! i))) →
  Post dt c c.
Proof.
  intros H i. destruct (pcs c !! i) as [p|] eqn:Hp; [|done].
  exists p, id. destruct (H i p Hp) as [->|[-> ?]]; simpl.
  - repeat split; [by rewrite option_fmap_id|done].
  - repeat split; [by rewrite option_fmap_id|done].
Qed.

(** *** The loops on a store whose positions are those of the start *)

Lemma snapshot_accum i si j obs :
  Forall2 (λ k o, ∃ s0k, s0 !! k = Some s0k ∧ x o = x s0k ∧
                         y o = y s0k ∧ mass o = mass s0k)
          (partners i j) obs →
  foldl (snapshot_pair dt s0 i) si (seq 0 j) = accum dt si obs.
Proof.
  revert obs. induction j as [|j IH]; intros obs.
  - intros ->%Forall2_nil_inv_l. done.
  - rewrite seq_S, foldl_snoc. simpl. unfold snapshot_pair at 1.
    destruct (Nat.eqb_spec i j) as [->|Hne].
    + rewrite partners_S_self. apply IH.
    + rewrite partners_S_ne by done.
      intros (obs' & o1 & Hobs & Ho & ->)%Forall2_app_inv_l.
      apply Forall2_cons_inv_l in Ho as (o & ? & (s0j & Hs0j & Hx & Hy & Hm) & ->%Forall2_nil_inv_l & ->).
      rewrite accum_snoc, Hs0j, (IH obs' Hobs).
      unfold look, pair_body. rewrite Hx, Hy, Hm. reflexivity.
Qed.

Lemma Inv_barrier c i s0i :
  numStars ≤ length s0 → Inv c → loops_over numStars c = true →
  i < numStars → s0 !! i = Some s0i →
  pcs c !! i = Some AtX ∧
  mem c !! i = Some (foldl (snapshot_pair dt s0 i) s0i (seq 0 numStars)).
Proof.
  intros Hn HI Hover Hi Hs0i. pose proof HI as (_ & _ & Hslots).
  assert (Hpc : ∀ k, k < numStars → pcs c !! k = Some AtX).
  { intros k Hk. unfold loops_over in Hover.
    apply Is_true_true, forallb_True in Hover.
    rewrite Forall_lookup in Hover.
    specialize (Hover k k (lookup_seq_lt 0 numStars k Hk)).
    destruct (pcs c !! k) as [[]|]; done. }
  split; [auto|].
  destruct (Hslots i s0i Hs0i) as (si & Hsi & Hti).
  rewrite (Hpc i Hi) in Hti. destruct Hti as (_ & obs & Hobs & ->).
  rewrite Hsi. f_equal. symmetry. apply snapshot_accum.
  apply Forall2_below in Hobs.
  eapply Forall2_impl; [exact Hobs|]. intros k o [Hk Hseen].
  destruct Hseen as (s0k & sk & Hs0k & Hsk & Hm & Hx & Hy).
  exists s0k. split; [done|].
  destruct (Hslots k s0k Hs0k) as (sk' & Hsk' & Htk).
  assert (sk' = sk) as -> by congruence.
  rewrite (Hpc k Hk) in Htk. destruct Htk as (_ & Hr).
  apply (reads_frame dt s0) in Hr. destruct Hr as (Hkx & Hky & _).
  rewrite Hkx in Hx. rewrite Hky in Hy. intuition.
Qed.

End Phased.

Section Tick.

Variables (numStars : nat) (dt : F32.t) (T : nat).
Variable s0 : list Star.

Abbreviation Inv := (Inv numStars dt s0).
Abbreviation kexec := (exec pair_body numStars dt).
Abbreviation klaunch := (launch numStars T).

Lemma exec_pcs_length sched c c' :
  kexec sched c = Some c' → length (pcs c') = length (pcs c).
Proof.
  revert c. induction sched as [|t sched IH]; intros c; simpl.
  - now intros [= <-].
  - destruct (step pair_body numStars dt t c) as [c1|] eqn:Hstep;
      simpl; [|done].
    intros H. rewrite (IH c1 H). apply step_pcs in Hstep.
    destruct (pcs c !! t).
    + destruct Hstep as (p1 & -> & _). now rewrite length_insert.
    + now subst.
Qed.

Lemma finished_Done c i p : finished c = true → pcs c !! i = Some p → p = Done.
Proof.
  intros H Hp. apply Is_true_true, forallb_True in H.
  rewrite Forall_lookup in H. specialize (H i p Hp). now destruct p.
Qed.

Lemma tick_exec sched out :
  updateStars numStars dt T sched s0 = Some out →
  ∃ c, kexec sched (klaunch s0) = Some c ∧ finished c = true ∧ out = mem c.
Proof.
  unfold updateStars, tick.
  destruct (exec _ _ _ _ _) as [c|]; simpl; [|done].
  destruct (finished c) eqn:Hf; [|done]. intros [= <-]. eauto.
Qed.

(** The slot of a particle when the host sees the buffer again. *)
Lemma tick_slot sched out i s0i :
  numStars ≤ length s0 →
  updateStars numStars dt T sched s0 = Some out → s0 !! i = Some s0i →
  ∃ si, out !! i = Some si ∧
        if decide (i < numStars ∧ i < T)
        then ∃ obs, Forall2 (seen s0 out) (partners i numStars) obs ∧
                    si = advance_y dt (advance_x dt (accum dt s0i obs))
        else si = s0i.
Proof.
  intros Hn (c & Hexec & Hfin & ->)%tick_exec Hs0i.
  pose proof (exec_Inv_Some numStars dt s0 sched _ c Hn
                (launch_Inv numStars dt T s0) Hexec) as (_ & Hact & Hslots).
  destruct (Hslots i s0i Hs0i) as (si & Hsi & Hti). exists si.
  split; [done|].
  pose proof (exec_pcs_length _ _ _ Hexec) as Hlen.
  unfold launch in Hlen; simpl in Hlen.
  rewrite length_fmap, length_seq in Hlen.
  destruct (pcs c !! i) as [p|] eqn:Hp.
  - assert (i < T) by (rewrite <- Hlen; eauto using lookup_lt_Some).
    rewrite (finished_Done c i p Hfin Hp) in Hti. simpl in Hti.
    repeat case_decide; try lia; try done.
    destruct Hti as (a & (obs & ? & ->) & ->). eauto.
  - apply lookup_ge_None in Hp. case_decide; [lia|done].
Qed.

Lemma tick_length sched out :
  numStars ≤ length s0 →
  updateStars numStars dt T sched s0 = Some out → length out = length s0.
Proof.
  intros Hn (c & Hexec & Hfin & ->)%tick_exec.
  now pose proof (exec_Inv_Some numStars dt s0 sched _ c Hn
                    (launch_Inv numStars dt T s0) Hexec) as (? & _).
Qed.

(** A tick writes neither a mass nor an opacity, and the brightness it
    leaves does not depend on the schedule. *)
Lemma tick_frame sched out i s0i :
  numStars ≤ length s0 →
  updateStars numStars dt T sched s0 = Some out → s0 !! i = Some s0i →
  ∃ si, out !! i = Some si ∧ mass si = mass s0i ∧ opacity si = opacity s0i ∧
        brightness si =
          if decide (i < numStars ∧ i < T)
          then Nat.iter (numStars - 1) bump (brightness s0i)
          else brightness s0i.
Proof.
  intros Hn Htick Hs0i.
  destruct (tick_slot sched out i s0i Hn Htick Hs0i) as (si & Hsi & H).
  exists si. split; [done|]. case_decide; [|now subst].
  destruct H as (obs & Hobs & ->). simpl.
  destruct (accum_frame dt s0i obs) as (_ & _ & -> & ->).
  rewrite accum_brightness.
  rewrite <- (Forall2_length _ _ _ Hobs), partners_length by tauto. done.
Qed.

(** Every schedule that grants each unit enough steps completes the
    tick. *)
Lemma tick_complete sched :
  numStars ≤ length s0 →
  (∀ i, i < numStars → i < T → 2 * numStars + 3 ≤ turns i sched) →
  ∃ out, updateStars numStars dt T sched s0 = Some out.
Proof.
  intros Hn Hfair. unfold updateStars, tick.
  destruct (exec_Inv numStars dt s0 sched _ Hn (launch_Inv numStars dt T s0))
    as (c & Hexec & _).
  rewrite Hexec. simpl.
  rewrite (exec_finished numStars dt T s0 sched c Hfair Hexec). eauto.
Qed.

(** An execution in which no position is advanced before every loop is
    over computes the double-buffered tick. *)
Lemma phased_snapshot s1 s2 c1 out :
  numStars ≤ length s0 →
  kexec s1 (klaunch s0) = Some c1 → loops_over numStars c1 = true →
  updateStars numStars dt T (s1 ++ s2) s0 = Some out →
  out = updateStars_snapshot numStars dt s0.
Proof.
  intros Hn Hexec1 Hover (c2 & Hexec & Hfin & ->)%tick_exec.
  rewrite exec_app, Hexec1 in Hexec. simpl in Hexec.
  pose proof (exec_Inv_Some numStars dt s0 s1 _ c1 Hn
                (launch_Inv numStars dt T s0) Hexec1) as HI.
  assert (HP : Post dt c1 c2).
  { eapply Post_exec; [|exact Hexec]. apply Post_refl. intros i p Hp.
    destruct (decide (i < numStars)) as [Hi|Hi].
    - destruct (lookup_lt_is_Some_2 s0 i) as [s0i Hs0i]; [lia|].
      destruct (Inv_barrier numStars dt s0 c1 i s0i Hn HI Hover Hi Hs0i)
        as [Hpc Hm]. right. split; [congruence|]. rewrite Hm. eauto.
    - left. destruct HI as (_ & Hact & _).
      destruct p; try done; exfalso; apply Hi; eapply Hact; eauto. }
  apply list_eq. intros i. unfold updateStars_snapshot.
  rewrite list_lookup_imap. specialize (HP i).
  destruct (s0 !! i) as [s0i|] eqn:Hs0i; simpl.
  - destruct (Nat.ltb_spec i numStars) as [Hi|Hi].
    + destruct (Inv_barrier numStars dt s0 c1 i s0i Hn HI Hover Hi Hs0i)
        as [Hpc Hm].
      rewrite Hpc in HP. destruct HP as (q & f & Hq & Hf & -> & _).
      rewrite (finished_Done c2 i q Hfin Hq) in Hf. injection Hf as <-.
      now rewrite Hm.
    + destruct HI as (_ & Hact & Hslots).
      destruct (Hslots i s0i Hs0i) as (si & Hsi & Hti).
      destruct (pcs c1 !! i) as [p1|] eqn:Hp1.
      * destruct HP as (q & f & Hq & Hf & -> & _).
        assert (p1 = Done) as ->.
        { destruct p1; try done; exfalso;
            (enough (i < numStars) by lia); eapply Hact; eauto. }
        simpl in Hti. case_decide; [lia|]. subst si.
        destruct q; try discriminate Hf. injection Hf as <-.
        now rewrite Hsi.
      * destruct HP as [_ ->]. now subst.
  - destruct HI as (Hlen & _).
    assert (Hnone : mem c1 !! i = None).
    { apply lookup_ge_None. rewrite Hlen. now apply lookup_ge_None. }
    destruct (pcs c1 !! i).
    + destruct HP as (q & f & _ & _ & -> & _). now rewrite Hnone.
    + destruct HP as [_ ->]. done.
Qed.

End Tick.

(** ** The claims on the integrator *)

Lemma accum_velocity dt si obs :
  (vx (accum dt si obs), vy (accum dt si obs))
  = foldl (add_increment dt si) (vx si, vy si) obs.
Proof.
  induction obs as [|o obs IH] using rev_ind; [done|].
  rewrite accum_snoc, foldl_snoc, <- IH.
  destruct (accum_frame dt si obs) as (Hx & Hy & Hm & _).
  unfold look, add_increment, code_accel, pair_body; simpl.
  now rewrite Hx, Hy, Hm.
Qed.

Lemma tick_fields numStars dt T s0 sched out :
  numStars ≤ length s0 →
  updateStars numStars dt T sched s0 = Some out →
  mass <$> out = mass <$> s0 ∧ opacity <$> out = opacity <$> s0 ∧
  brightness <$> out
  = imap (λ i s, if decide (i < numStars ∧ i < T)
                 then Nat.iter (numStars - 1) bump (brightness s)
                 else brightness s) s0.
Proof.
  intros Hn Htick.
  pose proof (tick_length numStars dt T s0 sched out Hn Htick) as Hlen.
  assert (H : ∀ i, match s0 !! i with
                   | Some s0i =>
                       ∃ si, out !! i = Some si ∧ mass si = mass s0i ∧
                             opacity si = opacity s0i ∧
                             brightness si =
                               if decide (i < numStars ∧ i < T)
                               then Nat.iter (numStars - 1) bump (brightness s0i)
                               else brightness s0i
                   | None => out !! i = None
                   end).
  { intros i. destruct (s0 !! i) as [s0i|] eqn:Hs0i.
    - eapply tick_frame; eauto.
    - apply lookup_ge_None. rewrite Hlen. now apply lookup_ge_None. }
  repeat split; apply list_eq; intros i; specialize (H i);
    rewrite ?list_lookup_imap, !list_lookup_fmap;
    destruct (s0 !! i) as [s0i|];
    try (destruct H as (si & -> & Hm & Ho & Hb); simpl; congruence);
    now rewrite H.
Qed.

Lemma phased_tick_snapshot numStars dt T s0 s1 s2 out :
  numStars ≤ length s0 →
  phased numStars dt T s1 s0 = true →
  updateStars numStars dt T (s1 ++ s2) s0 = Some out →
  out = updateStars_snapshot numStars dt s0.
Proof.
  intros Hn Hph Htick. unfold phased in Hph.
  destruct (exec pair_body numStars dt s1 (launch numStars T s0))
    as [c1|] eqn:Hexec; [|done].
  eapply phased_snapshot; eauto.
Qed.

Section Lockstep.

Variables (numStars : nat) (dt : F32.t) (T : nat).
Variable s0 : list Star.

Abbreviation Inv := (Inv numStars dt s0).
Abbreviation kstep := (step pair_body numStars dt).
Abbreviation kexec := (exec pair_body numStars dt).
Abbreviation klaunch := (launch numStars T).
Abbreviation aligned := (aligned numStars T).

(** A thread in its loop moves one step nearer to the end of the loop. *)
Lemma step_loop c t p m :
  numStars ≤ length s0 → Inv c →
  pcs c !! t = Some p → in_loop p = true → loop_left numStars t p = S m →
  ∃ c' p', kstep t c = Some c' ∧ Inv c' ∧
           pcs c' = <[t := p']> (pcs c) ∧
           loop_left numStars t p' = m ∧
           (if decide (m = 0) then p' = AtX else in_loop p' = true).
Proof.
  intros Hn HI Hp Hin Hleft.
  destruct (step_Inv numStars dt s0 c t Hn HI) as (c' & Hstep & HI').
  exists c'. pose proof HI as (_ & _ & Hslots).
  assert (Ht : t < numStars).
  { destruct HI as (_ & Hact & _). apply (Hact t p Hp). now destruct p. }
  destruct (lookup_lt_is_Some_2 s0 t) as [s0t Hs0t]; [lia|].
  destruct (Hslots t s0t Hs0t) as (st & Hst & Hti). rewrite Hp in Hti.
  enough (∃ p', pcs c' = <[t := p']> (pcs c) ∧
                loop_left numStars t p' = m ∧
                (if decide (m = 0) then p' = AtX else in_loop p' = true))
    as (p' & ? & ? & ?) by eauto 10.
  revert Hstep. unfold step. rewrite Hp.
  destruct p as [j|j dx| | |]; try discriminate Hin; simpl in Hti, Hleft |- *.
  - destruct Hti as (_ & Hj & _).
    destruct (Nat.ltb_spec j numStars) as [Hlt|Hge].
    + destruct (Nat.eqb_spec t j) as [<-|Hne]; simpl.
      * intros [= <-]. eexists. split; [done|]. simpl.
        repeat case_decide; (done || lia).
      * destruct (mem c !! j); simpl; [|done]. rewrite Hst. simpl.
        intros [= <-]. eexists. split; [done|]. simpl.
        repeat case_decide; (done || lia).
    + simpl. intros [= <-]. eexists. split; [done|]. simpl.
      repeat case_decide; (done || lia).
  - destruct Hti as (_ & Hj & Hne & _).
    destruct (mem c !! j); simpl; [|done]. rewrite Hst. simpl.
    intros [= <-]. eexists. split; [done|]. simpl.
    repeat case_decide; (done || lia).
Qed.

Lemma aligned_turns len a m c :
  numStars ≤ length s0 → Inv c → a + len = T → aligned a m c →
  ∃ c', kexec (seq a len) c = Some c' ∧ Inv c' ∧ aligned T m c'.
Proof.
  intros Hn. revert a c. induction len as [|len IH]; intros a c HI Ha Hal.
  - exists c. simpl. replace a with T in Hal by lia. auto.
  - cbn [seq exec]. destruct Hal as [Hlen Hal].
    destruct (decide (a < numStars)) as [Han|Han].
    + destruct (Hal a Han ltac:(lia)) as (p & Hp & H).
      case_decide; [lia|]. destruct H as [Hleft Hin].
      destruct (step_loop c a p m Hn HI Hp Hin Hleft)
        as (c' & p' & -> & HI' & Hpcs & Hleft' & Hp').
      simpl. apply (IH (S a) c' HI' ltac:(lia)).
      split; [rewrite Hpcs, length_insert; done|].
      intros i Hi HiT. rewrite Hpcs.
      destruct (decide (i = a)) as [->|Hne].
      * exists p'. rewrite list_lookup_insert_eq by lia.
        split; [done|]. destruct (decide (a < S a)); [split; assumption|lia].
      * rewrite list_lookup_insert_ne by done.
        destruct (Hal i Hi HiT) as (q & Hq & H). exists q. split; [done|].
        repeat case_decide; try lia; done.
    + destruct (step_Inv numStars dt s0 c a Hn HI) as (c' & Hstep & HI').
      rewrite Hstep. simpl. apply (IH (S a) c' HI' ltac:(lia)).
      assert (Hpcs : pcs c' = pcs c).
      { pose proof (step_pcs numStars dt a c c' Hstep) as H.
        destruct (pcs c !! a) as [p|] eqn:Hp; [|now subst].
        destruct H as (p' & -> & Hrem).
        destruct HI as (_ & Hact & _).
        assert (p = Done) as ->
          by (destruct p; try done; exfalso; apply Han; eapply Hact; eauto).
        simpl in Hrem. assert (p' = Done) as ->
          by (destruct p'; simpl in Hrem; done || lia).
        now apply list_insert_id. }
      split; [congruence|].
      intros i Hi HiT. rewrite Hpcs. destruct (Hal i Hi HiT) as (q & Hq & H).
      exists q. split; [done|]. repeat case_decide; try lia; done.
Qed.

Lemma aligned_round m c :
  numStars ≤ length s0 → Inv c → aligned T (S m) c →
  ∃ c', kexec (round T) c = Some c' ∧ Inv c' ∧ aligned T m c'.
Proof.
  intros Hn HI [Hlen Hal]. apply (aligned_turns T 0 m c Hn HI eq_refl).
  split; [done|]. intros i Hi HiT. destruct (Hal i Hi HiT) as (p & Hp & H).
  exists p. split; [done|]. repeat case_decide; try lia. tauto.
Qed.

Lemma aligned_rounds k m c :
  numStars ≤ length s0 → Inv c → aligned T (k + m) c →
  ∃ c', kexec (rounds k T) c = Some c' ∧ Inv c' ∧ aligned T m c'.
Proof.
  intros Hn. revert c. induction k as [|k IH]; intros c HI Hal.
  - exists c. auto.
  - destruct (aligned_round (k + m) c Hn HI Hal) as (c1 & Hc1 & HI1 & Hal1).
    destruct (IH c1 HI1 Hal1) as (c' & Hc' & HI' & Hal').
    exists c'. split; [|done].
    unfold rounds. cbn [replicate]. rewrite bind_cons, exec_app.
    change (id (round T)) with (round T). rewrite Hc1. exact Hc'.
Qed.

Lemma launch_aligned : aligned T (2 * numStars) (klaunch s0).
Proof.
  split; [unfold launch; simpl; now rewrite length_fmap, length_seq|].
  intros i Hi HiT. exists (AtLoop 0). rewrite launch_pcs.
  case_decide; [|lia]. unfold entry.
  destruct (Nat.ltb_spec i numStars); [|lia]. split; [done|].
  case_decide; simpl; repeat case_decide; lia.
Qed.

(** The units of a lockstep execution finish their loops together,
    before any of them advances its position. *)
Lemma lockstep_phased :
  numStars ≤ length s0 → numStars ≤ T →
  phased numStars dt T (rounds (2 * numStars) T) s0 = true.
Proof.
  intros Hn HT. unfold phased.
  destruct (aligned_rounds (2 * numStars) 0 (klaunch s0) Hn
              (launch_Inv numStars dt T s0))
    as (c1 & -> & _ & _ & Hal).
  { rewrite Nat.add_0_r. apply launch_aligned. }
  unfold loops_over. apply Is_true_true, forallb_True, Forall_forall.
  intros i Hi%elem_of_seq.
  destruct (Hal i ltac:(lia) ltac:(lia)) as (p & -> & H).
  case_decide; [|lia]. destruct H as [_ H]. case_decide; [|done]. now subst.
Qed.

Lemma lockstep_rounds :
  lockstep numStars T = rounds (2 * numStars) T ++ rounds 3 T.
Proof.
  unfold lockstep, rounds, round. now rewrite replicate_add, bind_app.
Qed.

End Lockstep.

(** The lockstep execution of the kernel computes the double-buffered
    tick. *)
Lemma lockstep_snapshot numStars dt T s0 :
  numStars ≤ length s0 → numStars ≤ T →
  updateStars numStars dt T (lockstep numStars T) s0
  = Some (updateStars_snapshot numStars dt s0).
Proof.
  intros Hn HT.
  destruct (tick_complete numStars dt T s0 (lockstep numStars T) Hn)
    as [out Hout].
  { intros i _ Hi. now apply turns_lockstep. }
  rewrite Hout. f_equal. rewrite lockstep_rounds in Hout.
  eapply phased_tick_snapshot; eauto using lockstep_phased.
Qed.

(** Running the units one after the other completes the tick too. *)
Lemma serial_complete numStars dt T s0 :
  numStars ≤ length s0 →
  ∃ out, updateStars numStars dt T (serial numStars (seq 0 T)) s0 = Some out.
Proof.
  intros Hn. apply tick_complete; [done|].
  intros i _ Hi. apply turns_serial, elem_of_seq. lia.
Qed.

(** The grid of [main] has a thread for every particle. *)
Lemma grid_covers numStars : numStars ≤ grid numStars.
Proof.
  unfold grid, numBlocks, numThreads.
  pose proof (Nat.mul_succ_div_gt (numStars + 512 - 1) 512 ltac:(lia)). lia.
Qed.

(** C1, as stated, fails: when unit 0 runs to its end before unit 1
    starts, unit 1 reads the advanced position of particle 0 and the
    store differs from the double-buffered one. *)
Lemma inplace_differs_from_snapshot :
  ∃ out, updateStars 2 dt 2 (serial 2 [0; 1]) heavy_pair = Some out ∧
         out ≠ updateStars_snapshot 2 dt heavy_pair.
Proof. eexists. split; [vm_compute; reflexivity|]. vm_compute. discriminate. Qed.

(** C1, amended: the tick computed in place equals the double-buffered
    evaluation of the tick-start snapshot for every execution in which
    no unit advances its position before all units have finished their
    pair loops; the lockstep execution of the grid is one of them. *)
Theorem inplace_equals_snapshot_when_phased numStars dt T s0 :
  numStars ≤ length s0 →
  (∀ s1 s2 out,
     phased numStars dt T s1 s0 = true →
     updateStars numStars dt T (s1 ++ s2) s0 = Some out →
     out = updateStars_snapshot numStars dt s0) ∧
  (numStars ≤ T →
   updateStars numStars dt T (lockstep numStars T) s0
   = Some (updateStars_snapshot numStars dt s0)).
Proof.
  intros Hn. split.
  - intros s1 s2 out. now apply phased_tick_snapshot.
  - now apply lockstep_snapshot.
Qed.

Lemma inplace_equals_snapshot_when_phased_witness :
  2 ≤ length heavy_pair ∧
  phased 2 dt 2 both_loops heavy_pair = true ∧
  updateStars 2 dt 2 (both_loops ++ [1; 0; 1; 0]) heavy_pair
  = Some (updateStars_snapshot 2 dt heavy_pair) ∧
  updateStars 2 dt 2 (lockstep 2 2) heavy_pair
  = Some (updateStars_snapshot 2 dt heavy_pair).
Proof.
  destruct (inplace_equals_snapshot_when_phased 2 dt 2 heavy_pair (le_n 2))
    as [Hphased Hlock].
  split; [exact (le_n 2)|]. split; [vm_compute; reflexivity|]. split.
  - assert (H : ∃ out, updateStars 2 dt 2 (both_loops ++ [1; 0; 1; 0])
                         heavy_pair = Some out)
      by (eexists; vm_compute; reflexivity).
    destruct H as [out Hout]. rewrite Hout. f_equal.
    apply (Hphased both_loops [1; 0; 1; 0] out); [vm_compute; reflexivity|].
    exact Hout.
  - apply Hlock. exact (le_n 2).
Defined.

(** C3: in every execution of a tick the slot of particle [i] ends as
    follows.  Its velocity is the fold, over one observation per partner
    [j ≠ i], of the additions [v += a * dt], computed while the position
    still is the one of the tick start; the position is then advanced
    once, by [v * dt / 2] with the velocity so accumulated.  Each
    observation carries the mass of the partner and, per coordinate, the
    position it had at the tick start or the one it has in the end. *)
Theorem velocity_then_half_step numStars dt T sched s0 out i s0i :
  numStars ≤ length s0 → i < numStars → i < T →
  updateStars numStars dt T sched s0 = Some out →
  s0 !! i = Some s0i →
  ∃ obs si,
    out !! i = Some si ∧
    length obs = numStars - 1 ∧
    Forall2 (seen s0 out) (partners i numStars) obs ∧
    (vx si, vy si) = foldl (add_increment dt s0i) (vx s0i, vy s0i) obs ∧
    x si = (x s0i + vx si * dt / F32.of_int 2)%f32 ∧
    y si = (y s0i + vy si * dt / F32.of_int 2)%f32.
Proof.
  intros Hn Hi HT Htick Hs0i.
  destruct (tick_slot numStars dt T s0 sched out i s0i Hn Htick Hs0i)
    as (si & Hsi & H).
  case_decide; [|lia]. destruct H as (obs & Hobs & ->).
  exists obs. eexists. split; [exact Hsi|].
  split; [rewrite <- (Forall2_length _ _ _ Hobs); now apply partners_length|].
  split; [done|]. simpl. rewrite <- accum_velocity.
  destruct (accum_frame dt s0i obs) as (-> & -> & _). done.
Qed.

Lemma velocity_then_half_step_witness :
  ∃ obs si,
    heavy_pair !! 0 = Some
      (mkStar (- F32.one)%f32 F32.zero (F32.of_int (10 ^ 12)) F32.zero F32.zero
              F32.zero F32.zero) ∧
    length obs = 1 ∧
    (vx si, vy si)
    = foldl (add_increment dt (mkStar (- F32.one)%f32 F32.zero
                                 (F32.of_int (10 ^ 12)) F32.zero F32.zero
                                 F32.zero F32.zero))
            (F32.zero, F32.zero) obs ∧
    x si = (- F32.one + vx si * dt / F32.of_int 2)%f32.
Proof.
  destruct (velocity_then_half_step 2 dt 2 (serial 2 [0; 1]) heavy_pair
              [ mkStar (S754_finite true 13306292 (-26)) F32.zero
                  (F32.of_int (10 ^ 12)) (S754_finite false 10847293 (-21))
                  F32.zero MIN_BRIGHTNESS F32.zero;
                mkStar (S754_finite true 10346414 (-23)) F32.zero
                  (F32.of_int (10 ^ 12)) (S754_finite true 15108888 (-20))
                  F32.zero MIN_BRIGHTNESS F32.zero ]
              0 _ ltac:(simpl; lia) ltac:(lia) ltac:(lia)
              ltac:(vm_compute; reflexivity) eq_refl)
    as (obs & si & _ & Hlen & _ & Hv & Hx & _).
  exists obs, si. repeat split; assumption.
Defined.

(** C4: when the store has at least two particles, every particle has a
    brightness in [[0.1, 1.0]] after a tick, whatever it was before. *)
Theorem brightness_clamped numStars dt T sched s0 out i si :
  2 ≤ numStars → numStars = length s0 → numStars ≤ T →
  updateStars numStars dt T sched s0 = Some out →
  out !! i = Some si →
  in_range (brightness si).
Proof.
  intros H2 Hn HT Htick Hsi.
  pose proof (tick_length numStars dt T s0 sched out ltac:(lia) Htick) as Hlen.
  assert (Hi : i < numStars)
    by (rewrite Hn, <- Hlen; eauto using lookup_lt_Some).
  destruct (lookup_lt_is_Some_2 s0 i) as [s0i Hs0i]; [lia|].
  destruct (tick_frame numStars dt T s0 sched out i s0i ltac:(lia) Htick Hs0i)
    as (si' & Hsi' & _ & _ & Hb).
  assert (si' = si) as -> by congruence.
  rewrite Hb. case_decide; [|lia].
  destruct numStars as [|[|k]]; [lia|lia|]. simpl. apply bump_range.
Qed.

Lemma brightness_clamped_witness :
  in_range (brightness (mkStar (S754_finite true 13306292 (-26)) F32.zero
                          (F32.of_int (10 ^ 12))
                          (S754_finite false 10847293 (-21))
                          F32.zero MIN_BRIGHTNESS F32.zero)).
Proof.
  apply (brightness_clamped 2 dt 2 (serial 2 [0; 1]) heavy_pair
           [ mkStar (S754_finite true 13306292 (-26)) F32.zero
               (F32.of_int (10 ^ 12)) (S754_finite false 10847293 (-21))
               F32.zero MIN_BRIGHTNESS F32.zero;
             mkStar (S754_finite true 10346414 (-23)) F32.zero
               (F32.of_int (10 ^ 12)) (S754_finite true 15108888 (-20))
               F32.zero MIN_BRIGHTNESS F32.zero ] 0);
    [lia|reflexivity|lia|vm_compute; reflexivity|reflexivity].
Defined.

Lemma run_ticks_fields numStars dt T scheds s0 out :
  numStars ≤ length s0 →
  run_ticks numStars dt T scheds s0 = Some out →
  length out = length s0 ∧
  mass <$> out = mass <$> s0 ∧ opacity <$> out = opacity <$> s0.
Proof.
  revert s0. induction scheds as [|sched scheds IH]; intros s0 Hn; simpl.
  - now intros [= <-].
  - destruct (updateStars numStars dt T sched s0) as [s1|] eqn:Htick;
      simpl; [|done].
    intros Hrun.
    pose proof (tick_length numStars dt T s0 sched s1 Hn Htick) as Hlen.
    destruct (tick_fields numStars dt T s0 sched s1 Hn Htick) as (Hm & Ho & _).
    destruct (IH s1 ltac:(lia) Hrun) as (? & ? & ?).
    repeat split; congruence.
Qed.

(** C6: running any number of ticks changes neither the mass nor the
    opacity of any particle. *)
Theorem mass_opacity_unchanged numStars dt T scheds s0 out :
  numStars ≤ length s0 →
  run_ticks numStars dt T scheds s0 = Some out →
  mass <$> out = mass <$> s0 ∧ opacity <$> out = opacity <$> s0.
Proof. intros Hn Hrun. eapply run_ticks_fields; eauto. Qed.

Lemma mass_opacity_unchanged_witness :
  ∃ out,
    run_ticks 2 dt 2 [serial 2 [0; 1]; lockstep 2 2; serial 2 [1; 0]] heavy_pair
    = Some out ∧
    mass <$> out = mass <$> heavy_pair ∧
    opacity <$> out = opacity <$> heavy_pair.
Proof.
  eexists. split; [vm_compute; reflexivity|].
  apply (mass_opacity_unchanged 2 dt 2
           [serial 2 [0; 1]; lockstep 2 2; serial 2 [1; 0]] heavy_pair);
    [simpl; lia|vm_compute; reflexivity].
Defined.

(** C7, as stated, fails: the two orders in which the units of a
    two-particle store can run one after the other give different
    stores. *)
Lemma tick_depends_on_order :
  ∃ out01 out10,
    updateStars 2 dt 2 (serial 2 [0; 1]) heavy_pair = Some out01 ∧
    updateStars 2 dt 2 (serial 2 [1; 0]) heavy_pair = Some out10 ∧
    out01 ≠ out10.
Proof.
  do 2 eexists. split; [vm_compute; reflexivity|].
  split; [vm_compute; reflexivity|]. discriminate.
Qed.

(** C7, amended: for a given schedule the tick is a function of the
    store and of the step.  Two executions of a tick from the same store
    always agree on the mass, the opacity and the brightness of every
    particle, and they agree on the whole store when in both no unit
    advances its position before all pair loops are over. *)
Theorem tick_determinism numStars dt T s0 sa sb outa outb :
  numStars ≤ length s0 →
  updateStars numStars dt T sa s0 = Some outa →
  updateStars numStars dt T sb s0 = Some outb →
  (mass <$> outa = mass <$> outb ∧ opacity <$> outa = opacity <$> outb ∧
   brightness <$> outa = brightness <$> outb) ∧
  (∀ a1 a2 b1 b2,
     sa = a1 ++ a2 → sb = b1 ++ b2 →
     phased numStars dt T a1 s0 = true → phased numStars dt T b1 s0 = true →
     outa = outb).
Proof.
  intros Hn Ha Hb. split.
  - destruct (tick_fields numStars dt T s0 sa outa Hn Ha) as (-> & -> & ->).
    destruct (tick_fields numStars dt T s0 sb outb Hn Hb) as (-> & -> & ->).
    done.
  - intros a1 a2 b1 b2 -> -> Hpa Hpb.
    rewrite (phased_tick_snapshot numStars dt T s0 a1 a2 outa Hn Hpa Ha).
    now rewrite (phased_tick_snapshot numStars dt T s0 b1 b2 outb Hn Hpb Hb).
Qed.

Lemma tick_determinism_witness :
  ∃ outa outb,
    updateStars 2 dt 2 (both_loops ++ [0; 1; 0; 1]) heavy_pair = Some outa ∧
    updateStars 2 dt 2 (both_loops ++ [1; 1; 0; 0]) heavy_pair = Some outb ∧
    brightness <$> outa = brightness <$> outb ∧ outa = outb.
Proof.
  assert (Ha : ∃ out, updateStars 2 dt 2 (both_loops ++ [0; 1; 0; 1])
                        heavy_pair = Some out)
    by (eexists; vm_compute; reflexivity).
  assert (Hb : ∃ out, updateStars 2 dt 2 (both_loops ++ [1; 1; 0; 0])
                        heavy_pair = Some out)
    by (eexists; vm_compute; reflexivity).
  destruct Ha as [outa Ha], Hb as [outb Hb]. exists outa, outb.
  destruct (tick_determinism 2 dt 2 heavy_pair _ _ outa outb (le_n 2) Ha Hb)
    as [(_ & _ & Hbr) Heq].
  repeat split; [exact Ha|exact Hb|exact Hbr|].
  apply (Heq both_loops [0; 1; 0; 1] both_loops [1; 1; 0; 0]);
    [reflexivity|reflexivity|vm_compute; reflexivity|vm_compute; reflexivity].
Defined.

(** C9: the escape velocity of line 40 is [sqrtf(2 * G * mj / dist)] and
    nothing reads it: the kernel and the kernel without that line give
    the same result, for every store and every schedule. *)
Theorem escape_velocity_is_dead numStars dt T sched s0 :
  (∀ sj dist,
     calculateEscapeVelocity sj dist
     = F32.sqrtf (F32.two * G * mass sj / dist)%f32) ∧
  updateStars numStars dt T sched s0
  = updateStars_no_escape numStars dt T sched s0.
Proof. split; reflexivity. Qed.

(** ** The pair contribution *)

(** C2, as stated, fails: for two particles of mass 1, one unit apart,
    the velocity that the code gives particle 0 is not the one of the
    formula with the distance [d' = sqrt(d_raw²) + ε']. *)
Lemma pair_contribution_differs_from_spec :
  ∃ c' si' a b,
    unit_pair = [a; b] ∧
    exec pair_body 2 dt [0; 0; 0] (launch 2 2 unit_pair) = Some c' ∧
    mem c' !! 0 = Some si' ∧
    vx si' ≠ (vx a + (spec_accel a b).1 * dt)%f32.
Proof.
  do 4 eexists. split; [reflexivity|]. split; [vm_compute; reflexivity|].
  split; [reflexivity|]. vm_compute. discriminate.
Qed.

(** C2, amended: when unit [i] handles partner [j], the velocity of [i]
    grows by [a * dt] with [a = (G·mj·mi / d²) · (Δ / sqrt(d²)) / mi]
    in each coordinate, where [d² = (xj−xi)² + (yj−yi)² + ε] and the
    normalizing distance is the root of that same softened [d²]. *)
Theorem pair_contribution numStars dt c i j si sj :
  pcs c !! i = Some (AtLoop j) → j < numStars → i ≠ j →
  mem c !! i = Some si → mem c !! j = Some sj →
  ∃ c' si',
    exec pair_body numStars dt [i; i] c = Some c' ∧
    pcs c' !! i = Some (AtLoop (S j)) ∧
    mem c' !! i = Some si' ∧
    let dx := (x sj - x si)%f32 in
    let dy := (y sj - y si)%f32 in
    let d2 := (dx * dx + dy * dy + softening)%f32 in
    let F := (G * mass sj * mass si / d2)%f32 in
    vx si' = (vx si + F * (dx / F32.sqrtf d2) / mass si * dt)%f32 ∧
    vy si' = (vy si + F * (dy / F32.sqrtf d2) / mass si * dt)%f32.
Proof.
  intros Hp Hj Hne Hsi Hsj.
  assert (Hlt : i < length (pcs c)) by eauto using lookup_lt_Some.
  assert (Hlm : i < length (mem c)) by eauto using lookup_lt_Some.
  set (c1 := {| mem := mem c; pcs := <[i := AtDy j (x sj - x si)%f32]> (pcs c) |}).
  assert (H1 : step pair_body numStars dt i c = Some c1).
  { unfold step. rewrite Hp. simpl.
    destruct (Nat.ltb_spec j numStars); [|lia].
    destruct (Nat.eqb_spec i j); [done|].
    now rewrite Hsj, Hsi. }
  assert (H2 : step pair_body numStars dt i c1
               = Some {| mem := <[i := pair_body dt si sj (x sj - x si)%f32
                                           (y sj - y si)%f32]> (mem c);
                         pcs := <[i := AtLoop (S j)]> (pcs c1) |}).
  { unfold step. subst c1. simpl.
    rewrite list_lookup_insert_eq by done. simpl. now rewrite Hsj, Hsi. }
  do 2 eexists. split.
  - cbn [exec]. rewrite H1. simpl. rewrite H2. reflexivity.
  - simpl. rewrite !list_lookup_insert_eq by (rewrite ?length_insert; done).
    repeat split.
Qed.

Lemma pair_contribution_witness :
  ∃ c' si',
    exec pair_body 2 dt [0; 0] (mkConfig unit_pair [AtLoop 1; AtLoop 0])
    = Some c' ∧
    mem c' !! 0 = Some si' ∧
    vx si' = S754_finite false 11926592 (-59).
Proof.
  destruct (pair_contribution 2 dt (mkConfig unit_pair [AtLoop 1; AtLoop 0]) 0 1
              _ _ eq_refl ltac:(lia) ltac:(lia) eq_refl eq_refl)
    as (c' & si' & Hexec & _ & Hm & Hvx & _).
  exists c', si'. split; [exact Hexec|]. split; [exact Hm|].
  rewrite Hvx. vm_compute. reflexivity.
Defined.

(** ** Two mirrored particles *)

Section Mirror.

Import F32 F32Facts F32Signs.

Lemma nn_finite_signed a : nn a → is_finite a = true → signed false a.
Proof. now intros [->|H]. Qed.

Lemma mul_finite_signed a b :
  signed false a → signed false b →
  is_finite a = true → is_finite b = true → signed false (a * b)%f32.
Proof.
  intros [] []; try discriminate; intros _ _; try constructor.
  apply binary_round_aux_signed. lia.
Qed.

Lemma leb_opp_signed a : signed false a → leb (- a)%f32 zero = true.
Proof. now intros []. Qed.

Lemma zero_div_zero a b :
  is_zero a = true → is_nan b = false → is_zero b = false →
  is_zero (a / b)%f32 = true.
Proof. destruct a, b; simpl; try discriminate; auto. Qed.

(** The accelerations of two particles of equal mass, seen from either
    side. *)
Lemma code_accel_mirror si sj dx dy :
  mass si = mass sj →
  code_accel sj si (- dx)%f32 dy
  = ((- (code_accel si sj dx dy).1)%f32, (code_accel si sj dx dy).2).
Proof.
  intros Hm. unfold code_accel; cbn [fst snd].
  rewrite mul_opp_opp, Hm, !div_opp_l, mul_opp_r, div_opp_l. reflexivity.
Qed.

Lemma code_accel_nn si sj dx dy :
  nn (mass si) → nn (mass sj) → nn dx → nn dy →
  nn (code_accel si sj dx dy).1.
Proof.
  intros Hi Hj Hx Hy. unfold code_accel; cbn [fst snd].
  assert (HG : nn G) by (right; constructor).
  assert (He : nn softening) by (right; constructor).
  repeat first [assumption | apply nn_div | apply nn_mul | apply nn_add
               | apply nn_sqrt].
Qed.

(** When the acceleration along the axis is finite and [dy] is zero,
    the acceleration across the axis is a zero. *)
Lemma code_accel_axis si sj dx :
  is_finite (code_accel si sj dx zero).1 = true →
  is_zero (code_accel si sj dx zero).2 = true.
Proof.
  unfold code_accel; cbn [fst snd].
  set (d2 := (dx * dx + zero * zero + softening)%f32).
  set (force := (G * mass sj * mass si / d2)%f32).
  intros (Hfq & Hmn & Hmz)%div_finite_inv.
  apply mul_finite_inv in Hfq as [Hf Hq].
  apply div_finite_inv in Hq as (_ & Hsn & Hsz).
  apply zero_div_zero; [|done|done].
  apply mul_zero_r; [done|]. now apply zero_div_zero.
Qed.

End Mirror.

Lemma two_body_snapshot r m b0 o0 b1 o1 dt :
  let p0 := mkStar (- r)%f32 F32.zero m F32.zero F32.zero b0 o0 in
  let p1 := mkStar r F32.zero m F32.zero F32.zero b1 o1 in
  let a0 := code_accel p0 p1 (r - - r)%f32 (F32.zero - F32.zero)%f32 in
  let a1 := code_accel p1 p0 (- r - r)%f32 (F32.zero - F32.zero)%f32 in
  let v0x := (F32.zero + a0.1 * dt)%f32 in
  let v0y := (F32.zero + a0.2 * dt)%f32 in
  let v1x := (F32.zero + a1.1 * dt)%f32 in
  let v1y := (F32.zero + a1.2 * dt)%f32 in
  updateStars_snapshot 2 dt (two_body r m b0 o0 b1 o1)
  = [ mkStar (- r + v0x * dt / F32.of_int 2)%f32
             (F32.zero + v0y * dt / F32.of_int 2)%f32
             m v0x v0y (bump b0) o0;
      mkStar (r + v1x * dt / F32.of_int 2)%f32
             (F32.zero + v1y * dt / F32.of_int 2)%f32
             m v1x v1y (bump b1) o1 ].
Proof. reflexivity. Qed.

(** C5, as stated, fails: when the unit of the particle at [(-1, 0)]
    runs to its end before the other one starts, the two velocities are
    not opposite. *)
Lemma two_body_asymmetric_in_place :
  ∃ a b,
    updateStars 2 dt 2 (serial 2 [0; 1])
      (two_body F32.one (F32.of_int (10 ^ 12))
                F32.zero F32.zero F32.zero F32.zero)
    = Some [a; b] ∧
    vx b ≠ (- vx a)%f32 ∧ F32.eqb (vx b) (- vx a)%f32 = false.
Proof.
  do 2 eexists. split; [vm_compute; reflexivity|].
  split; [vm_compute; discriminate|vm_compute; reflexivity].
Qed.

(** C5, amended: take two particles of equal positive mass at rest at
    [(-r, 0)] and [(r, 0)], [r > 0], whose mutual acceleration is
    finite, and an execution of the tick in which no unit advances its
    position before both pair loops are over.  Then the velocities along
    the axis are opposite (or both zero, when the increment underflows),
    they point to the other particle, and the velocities across the axis
    are zero. *)
Theorem two_body_symmetry mr er mm em md ed b0 o0 b1 o1 T s1 s2 out :
  let r := S754_finite false mr er in
  let m := S754_finite false mm em in
  let dt := S754_finite false md ed in
  F32.is_finite (two_body_accel r m) = true →
  phased 2 dt T s1 (two_body r m b0 o0 b1 o1) = true →
  updateStars 2 dt T (s1 ++ s2) (two_body r m b0 o0 b1 o1) = Some out →
  ∃ a b,
    out = [a; b] ∧
    (vx b = (- vx a)%f32 ∨ (vx a = F32.zero ∧ vx b = F32.zero)) ∧
    vy a = F32.zero ∧ vy b = F32.zero ∧
    F32.leb F32.zero (vx a) = true ∧ F32.leb (vx b) F32.zero = true.
Proof.
  intros r m dt' Hfin Hph Htick.
  pose proof (phased_tick_snapshot 2 dt' T (two_body r m b0 o0 b1 o1) s1 s2
                out (le_n 2) Hph Htick) as ->.
  rewrite two_body_snapshot. do 2 eexists. split; [reflexivity|].
  cbn [vx vy].
  change (F32.zero - F32.zero)%f32 with F32.zero.
  destruct (F32Facts.sub_mirror mr er) as [Hdx Hsdx].
  fold r in Hdx, Hsdx. rewrite Hdx.
  set (p0 := mkStar (- r)%f32 F32.zero m F32.zero F32.zero b0 o0).
  set (p1 := mkStar r F32.zero m F32.zero F32.zero b1 o1).
  rewrite (code_accel_mirror p0 p1 _ _ eq_refl). cbn [fst snd].
  change (F32.is_finite (code_accel p0 p1 (r - - r)%f32 F32.zero).1 = true)
    in Hfin.
  set (A := code_accel p0 p1 (r - - r)%f32 F32.zero) in *.
  assert (Hnn : nn A.1).
  { apply code_accel_nn; right; try constructor. exact Hsdx. }
  assert (Ht : signed false (A.1 * dt')%f32).
  { apply mul_finite_signed; [by apply nn_finite_signed|constructor|done|done]. }
  destruct (F32Signs.zero_add_mirror _ Ht) as [Hs Hmir].
  assert (Hy : (F32.zero + A.2 * dt')%f32 = F32.zero).
  { apply F32Signs.zero_add, F32Signs.mul_zero_l; [|done].
    now apply code_accel_axis. }
  rewrite F32Facts.mul_opp_l, Hy.
  repeat split; [exact Hmir|now apply F32Signs.leb_zero_signed|].
  destruct Hmir as [->|[_ ->]]; [now apply leb_opp_signed|reflexivity].
Qed.

Lemma two_body_symmetry_witness :
  ∃ a b,
    updateStars 2 dt 2 (both_loops ++ both_writes) heavy_pair = Some [a; b] ∧
    (vx b = (- vx a)%f32 ∨ (vx a = F32.zero ∧ vx b = F32.zero)) ∧
    vy a = F32.zero ∧ vy b = F32.zero.
Proof.
  destruct (two_body_symmetry 8388608 (-23) 15258789 16 10401874 (-25)
              F32.zero F32.zero F32.zero F32.zero 2 both_loops both_writes
              _ ltac:(vm_compute; reflexivity) ltac:(vm_compute; reflexivity)
              ltac:(vm_compute; reflexivity))
    as (a & b & Hout & Hx & Hya & Hyb & _).
  exists a, b. rewrite <- Hout. split; [vm_compute; reflexivity|]. tauto.
Defined.

(** ** The construction of the store *)

Lemma mul_not_finite a b :
  F32.is_finite a = false → F32.is_finite (a * b)%f32 = false.
Proof. destruct a, b; simpl; try discriminate; auto. Qed.

Lemma opp_not_finite a :
  F32.is_finite a = false → F32.is_finite (- a)%f32 = false.
Proof. destruct a; simpl; try discriminate; auto. Qed.

Lemma of_int_signed n : (0 < n)%Z → signed false (F32.of_int n).
Proof.
  destruct n as [|p|p]; try lia. intros _. apply binary_round_signed.
Qed.

Section ConstructionFacts.

Variable RAND_MAX : Z.
Variable rand_values : nat → Z.
Variables sinf cosf : F32.t → F32.t.

Abbreviation star_of := (init_star RAND_MAX rand_values sinf cosf 0 0).
Abbreviation loop := (init_loop RAND_MAX rand_values sinf cosf).

Lemma init_star_rng old g : star_of old g = ((star_of old g).1, 4 + g).
Proof. reflexivity. Qed.

Lemma init_loop_spec len start stars g :
  start + len ≤ length stars →
  ∃ out,
    loop (seq start len) stars g = Some (out, 4 * len + g) ∧
    length out = length stars ∧
    (∀ i, i < start → out !! i = stars !! i) ∧
    (∀ k, k < len →
          ∃ old, stars !! (start + k) = Some old ∧
                 out !! (start + k) = Some (star_of old (4 * k + g)).1).
Proof.
  revert start stars g. induction len as [|len IH]; intros start stars g Hlen.
  - exists stars. simpl. repeat split; auto. intros k Hk. lia.
  - destruct (lookup_lt_is_Some_2 stars start) as [old Hold]; [lia|].
    cbn [seq init_loop]. rewrite Hold. cbn [mbind option_bind].
    rewrite init_star_rng.
    destruct (IH (S start) (<[start := (star_of old g).1]> stars) (4 + g))
      as (out & Hout & Hl & Hlow & Hhigh).
    { rewrite length_insert. lia. }
    exists out. rewrite Hout. split; [f_equal; f_equal; lia|].
    rewrite length_insert in Hl. split; [done|]. split.
    + intros i Hi. rewrite Hlow by lia. now rewrite list_lookup_insert_ne by lia.
    + intros [|k] Hk.
      * exists old. rewrite Nat.add_0_r. split; [done|].
        rewrite Hlow by lia. now rewrite list_lookup_insert_eq by lia.
      * destruct (Hhigh k ltac:(lia)) as (old' & Hold' & Hk').
        rewrite list_lookup_insert_ne in Hold' by lia.
        exists old'. replace (start + S k) with (S start + k) by lia.
        split; [done|]. rewrite Hk'. do 3 f_equal. lia.
Qed.

Lemma construct_spec numStars buf :
  1 ≤ numStars → numStars ≤ length buf →
  ∃ out old0,
    construct RAND_MAX rand_values sinf cosf numStars buf = Some out ∧
    buf !! 0 = Some old0 ∧ out !! 0 = Some (init_central old0) ∧
    ∀ i, 1 ≤ i < numStars →
         ∃ old, buf !! i = Some old ∧
                out !! i = Some (star_of old (4 * (i - 1))).1.
Proof.
  intros H1 Hn. unfold construct.
  destruct (lookup_lt_is_Some_2 buf 0) as [old0 Hold0]; [lia|].
  rewrite Hold0. cbn [mbind option_bind].
  destruct (init_loop_spec (numStars - 1) 1 (<[0 := init_central old0]> buf) 0)
    as (out & Hout & Hl & Hlow & Hhigh).
  { rewrite length_insert. lia. }
  rewrite Hout. exists out, old0. split; [done|]. split; [done|]. split.
  - rewrite Hlow by lia. apply list_lookup_insert_eq. lia.
  - intros i Hi. destruct (Hhigh (i - 1) ltac:(lia)) as (old & Hold & Hk).
    replace (1 + (i - 1)) with i in * by lia.
    rewrite list_lookup_insert_ne in Hold by lia.
    exists old. split; [done|]. rewrite Hk. do 3 f_equal. lia.
Qed.

End ConstructionFacts.

(** C8: construction puts the central particle at the centre, at rest,
    and gives every other particle [i] the velocity
    [(-v * sinf(angle), v * cosf(angle))] with [v = sqrt(G * M / radius)],
    where [radius] and [angle] are the ones that place the particle at
    [centre + radius * (cosf(angle), sinf(angle))]. *)
Theorem construction_orbits RAND_MAX rand_values sinf cosf numStars buf :
  1 ≤ numStars → numStars ≤ length buf →
  ∃ out,
    construct RAND_MAX rand_values sinf cosf numStars buf = Some out ∧
    (∃ s, out !! 0 = Some s ∧
          x s = F32.of_int 450 ∧ y s = F32.of_int 450 ∧
          vx s = F32.zero ∧ vy s = F32.zero ∧ mass s = CENTRAL_MASS) ∧
    ∀ i, 1 ≤ i < numStars →
      ∃ s, out !! i = Some s ∧
        let radius := radius_of RAND_MAX (rand_values (4 * (i - 1))) in
        let angle := angle_of RAND_MAX (rand_values (S (4 * (i - 1)))) in
        let v := F32.sqrtf (G * CENTRAL_MASS / radius)%f32 in
        vx s = (- v * sinf angle)%f32 ∧
        vy s = (v * cosf angle)%f32 ∧
        x s = (F32.of_int 450 + radius * cosf angle - F32.zero)%f32 ∧
        y s = (F32.of_int 450 + radius * sinf angle - F32.zero)%f32.
Proof.
  intros H1 Hn.
  destruct (construct_spec RAND_MAX rand_values sinf cosf numStars buf H1 Hn)
    as (out & old0 & Hout & _ & H0 & Hi).
  exists out. split; [done|]. split.
  - eexists. split; [exact H0|]. repeat split.
  - intros i Hrange. destruct (Hi i Hrange) as (old & _ & ->).
    eexists. split; [reflexivity|]. repeat split.
Qed.

Lemma construction_orbits_witness :
  ∃ out,
    construct 2147483647 (λ n, 1000000 * (Z.of_nat n + 1))%Z
              (λ _, F32.zero) (λ _, F32.one) 3
              (replicate 3 (mkStar F32.zero F32.zero F32.zero F32.zero
                                   F32.zero F32.zero F32.zero))
    = Some out ∧
    ∃ s, out !! 0 = Some s ∧ x s = F32.of_int 450 ∧ mass s = CENTRAL_MASS.
Proof.
  destruct (construction_orbits 2147483647 (λ n, 1000000 * (Z.of_nat n + 1))%Z
              (λ _, F32.zero) (λ _, F32.one) 3
              (replicate 3 (mkStar F32.zero F32.zero F32.zero F32.zero
                                   F32.zero F32.zero F32.zero))
              ltac:(lia) ltac:(simpl; lia))
    as (out & Hout & (s & Hs & Hx & _ & _ & _ & Hm) & _).
  exists out. split; [exact Hout|]. exists s. auto.
Defined.

(** C10: when the draw for the radius of particle [i] is 0, the circular
    velocity is not finite, and neither are the two components of the
    velocity that construction stores for the particle: nothing rejects
    or redraws the radius. *)
Theorem zero_radius_velocity RAND_MAX rand_values sinf cosf numStars buf i :
  (0 < RAND_MAX)%Z →
  1 ≤ i < numStars → numStars ≤ length buf →
  rand_values (4 * (i - 1)) = 0%Z →
  ∃ out s,
    construct RAND_MAX rand_values sinf cosf numStars buf = Some out ∧
    out !! i = Some s ∧
    F32.is_finite (circular_velocity (radius_of RAND_MAX 0)) = false ∧
    F32.is_finite (vx s) = false ∧ F32.is_finite (vy s) = false.
Proof.
  intros HR Hi Hn Hdraw.
  destruct (construct_spec RAND_MAX rand_values sinf cosf numStars buf
              ltac:(lia) Hn) as (out & old0 & Hout & _ & _ & Hslots).
  destruct (Hslots i Hi) as (old & _ & Hs).
  exists out. eexists. split; [done|]. split; [exact Hs|].
  assert (Hv : F32.is_finite (circular_velocity (radius_of RAND_MAX 0)) = false).
  { unfold circular_velocity, radius_of, unit_draw.
    pose proof (of_int_signed RAND_MAX HR) as Hsig.
    destruct Hsig; reflexivity. }
  split; [exact Hv|].
  cbn [init_star rand fst vx vy]. rewrite Hdraw.
  split; auto using mul_not_finite, opp_not_finite.
Qed.

Lemma zero_radius_velocity_witness :
  ∃ out s,
    construct 2147483647 (λ _, 0%Z) (λ _, F32.zero) (λ _, F32.one) 3
              (replicate 3 (mkStar F32.zero F32.zero F32.zero F32.zero
                                   F32.zero F32.zero F32.zero))
    = Some out ∧
    out !! 1 = Some s ∧
    F32.is_finite (circular_velocity (radius_of 2147483647 0)) = false ∧
    F32.is_finite (vx s) = false ∧ F32.is_finite (vy s) = false.
Proof.
  apply (zero_radius_velocity 2147483647 (λ _, 0%Z) (λ _, F32.zero)
           (λ _, F32.one) 3 _ 1);
    [reflexivity|lia|simpl; lia|reflexivity].
Defined.

(** * Further properties

    ** The kernel under arbitrary schedules *)

(** X1: when [numStars] does not exceed the length of the buffer, no
    schedule, complete or not, makes a thread read or write outside the
    buffer, and the buffer keeps its length. *)
Theorem kernel_stays_in_bounds numStars dt T sched s0 :
  numStars ≤ length s0 →
  ∃ c, exec pair_body numStars dt sched (launch numStars T s0) = Some c ∧
       length (mem c) = length s0.
Proof.
  intros Hn.
  destruct (exec_Inv numStars dt s0 sched _ Hn (launch_Inv numStars dt T s0))
    as (c & Hc & Hlen & _).
  eauto.
Qed.

Lemma kernel_stays_in_bounds_witness :
  ∃ c, exec pair_body 2 dt [1; 1; 0; 1; 0; 0; 1] (launch 2 2 heavy_pair) = Some c ∧
       length (mem c) = 2.
Proof. apply (kernel_stays_in_bounds 2 dt 2 _ heavy_pair). simpl. lia. Defined.

Lemma step_length body numStars dt t c c' :
  step body numStars dt t c = Some c' → length (mem c') = length (mem c).
Proof.
  unfold step. destruct (pcs c !! t) as [p|]; [|now intros [= <-]].
  destruct p as [j|j dx| | |]; simpl.
  - destruct (j <? numStars); [|now intros [= <-]].
    destruct (t =? j); [now intros [= <-]|].
    destruct (mem c !! j); simpl; [|done].
    destruct (mem c !! t); simpl; [|done]. now intros [= <-].
  - destruct (mem c !! j); simpl; [|done].
    destruct (mem c !! t); simpl; [|done].
    intros [= <-]. simpl. apply length_insert.
  - destruct (mem c !! t); simpl; [|done].
    intros [= <-]. simpl. apply length_insert.
  - destruct (mem c !! t); simpl; [|done].
    intros [= <-]. simpl. apply length_insert.
  - now intros [= <-].
Qed.

(** A thread whose slot is outside the buffer never returns. *)
Lemma step_never_returns body numStars dt t c c' i :
  length (mem c) ≤ i →
  step body numStars dt t c = Some c' →
  pcs c' !! i = Some Done → pcs c !! i = Some Done.
Proof.
  intros Hi. unfold step.
  destruct (pcs c !! t) as [p|] eqn:Hp; [|now intros [= <-]].
  assert (Hlt : t < length (pcs c)) by eauto using lookup_lt_Some.
  assert (Hnone : mem c !! i = None) by now apply lookup_ge_None.
  destruct (decide (i = t)) as [->|Hne].
  - rewrite Hp. destruct p as [j|j dx| | |]; simpl.
    + destruct (j <? numStars).
      * destruct (t =? j).
        -- intros [= <-]. simpl. now rewrite list_lookup_insert_eq.
        -- destruct (mem c !! j); simpl; [|done]. now rewrite Hnone.
      * intros [= <-]. simpl. now rewrite list_lookup_insert_eq.
    + destruct (mem c !! j); simpl; [|done]. now rewrite Hnone.
    + now rewrite Hnone.
    + now rewrite Hnone.
    + done.
  - destruct (thread_step body numStars dt t p (mem c)) as [[m' p']|];
      simpl; [|done].
    intros [= <-]. simpl. now rewrite list_lookup_insert_ne.
Qed.

(** X2: when the slot of a particle below [numStars] that has a thread
    lies outside the buffer, no schedule completes the tick: the thread
    of that particle cannot return without an access outside the
    buffer. *)
Theorem short_buffer_never_completes numStars dt T sched s0 i :
  length s0 ≤ i → i < numStars → i < T →
  updateStars numStars dt T sched s0 = None.
Proof.
  intros Hlen Hn HT. unfold updateStars, tick.
  destruct (exec pair_body numStars dt sched (launch numStars T s0))
    as [c|] eqn:Hexec; [|done].
  simpl. enough (Hnd : pcs c !! i ≠ Some Done ∧ is_Some (pcs c !! i)).
  { destruct Hnd as [Hnd [p Hp]].
    destruct (finished c) eqn:Hfin; [|done].
    exfalso. apply Hnd. rewrite Hp. f_equal.
    eapply finished_Done; eauto. }
  assert (H0 : pcs (launch numStars T s0) !! i ≠ Some Done).
  { rewrite launch_pcs. case_decide; [|lia]. unfold entry.
    destruct (Nat.ltb_spec i numStars); [done|lia]. }
  assert (Hl0 : length (mem (launch numStars T s0)) ≤ i) by done.
  split.
  - revert Hexec H0 Hl0. generalize (launch numStars T s0) as c0.
    induction sched as [|t sched IH]; intros c0; simpl.
    + now intros [= <-].
    + destruct (step pair_body numStars dt t c0) as [c1|] eqn:Hstep;
        simpl; [|done].
      intros Hexec H0 Hl0. apply (IH c1 Hexec).
      * intros Hd. apply H0. eapply step_never_returns; eauto.
      * now rewrite (step_length _ _ _ _ _ _ Hstep).
  - apply lookup_lt_is_Some.
    rewrite (exec_pcs_length numStars dt sched _ c Hexec).
    unfold launch; simpl. now rewrite length_fmap, length_seq.
Qed.

Lemma short_buffer_never_completes_witness :
  updateStars 3 dt 3 (lockstep 3 3) heavy_pair = None.
Proof.
  apply (short_buffer_never_completes 3 dt 3 _ heavy_pair 2);
    [simpl; lia|lia|lia].
Defined.

(** X3: every schedule that grants each unit at least
    [2 * numStars + 3] steps completes the tick, whatever the
    interleaving. *)
Theorem fair_schedule_completes numStars dt T sched s0 :
  numStars ≤ length s0 →
  (∀ i, i < numStars → i < T → 2 * numStars + 3 ≤ turns i sched) →
  ∃ out, updateStars numStars dt T sched s0 = Some out ∧
         length out = length s0.
Proof.
  intros Hn Hfair.
  destruct (tick_complete numStars dt T s0 sched Hn Hfair) as [out Hout].
  exists out. split; [done|]. eapply tick_length; eauto.
Qed.

Lemma fair_schedule_completes_witness :
  ∃ out, updateStars 2 dt 2 (serial 2 [1; 0] ++ [0; 1; 1]) heavy_pair = Some out ∧
         length out = 2.
Proof.
  apply (fair_schedule_completes 2 dt 2 _ heavy_pair); [exact (le_n 2)|].
  intros [|[|i]] Hi _; [vm_compute; lia|vm_compute; lia|lia].
Defined.

(** X4: a unit without partner, in a store of one particle, changes
    neither velocity nor brightness: the tick only advances the position
    by [v * dt / 2]. *)
Theorem lone_particle_drifts dt T sched s0 out s :
  1 ≤ T → s0 !! 0 = Some s →
  updateStars 1 dt T sched s0 = Some out →
  out !! 0 = Some (advance_y dt (advance_x dt s)).
Proof.
  intros HT Hs Htick.
  pose proof (lookup_lt_Some _ _ _ Hs) as Hn.
  destruct (tick_slot 1 dt T s0 sched out 0 s Hn Htick Hs) as (si & -> & H).
  case_decide; [|lia]. destruct H as (obs & Hobs & ->).
  apply Forall2_nil_inv_l in Hobs as ->. reflexivity.
Qed.

Lemma lone_particle_drifts_witness :
  ∃ out,
    updateStars 1 dt 1 [0; 0; 0; 0] (take 1 heavy_pair) = Some out ∧
    out !! 0 = Some (advance_y dt (advance_x dt
                 (mkStar (- F32.one)%f32 F32.zero (F32.of_int (10 ^ 12))
                         F32.zero F32.zero F32.zero F32.zero))).
Proof.
  eexists. split; [vm_compute; reflexivity|].
  apply (lone_particle_drifts dt 1 [0; 0; 0; 0] (take 1 heavy_pair));
    [lia|reflexivity|vm_compute; reflexivity].
Defined.

(** X5: a tick leaves every slot at or beyond [numStars], and every slot
    without a thread, exactly as it was. *)
Theorem slots_beyond_untouched numStars dt T sched s0 out i :
  numStars ≤ length s0 → numStars ≤ i ∨ T ≤ i →
  updateStars numStars dt T sched s0 = Some out →
  out !! i = s0 !! i.
Proof.
  intros Hn Hi Htick. destruct (s0 !! i) as [s0i|] eqn:Hs0i.
  - destruct (tick_slot numStars dt T s0 sched out i s0i Hn Htick Hs0i)
      as (si & -> & H).
    case_decide; [lia|]. now subst.
  - apply lookup_ge_None.
    rewrite (tick_length numStars dt T s0 sched out Hn Htick).
    now apply lookup_ge_None.
Qed.

Lemma slots_beyond_untouched_witness :
  ∃ out, updateStars 1 dt 2 (lockstep 1 2) heavy_pair = Some out ∧
         out !! 1 = heavy_pair !! 1.
Proof.
  eexists. split; [vm_compute; reflexivity|].
  apply (slots_beyond_untouched 1 dt 2 (lockstep 1 2) heavy_pair);
    [simpl; lia|lia|vm_compute; reflexivity].
Defined.

(** X6: the slots of the threads that a schedule does not name are the
    same before and after its execution: a unit writes its own slot
    only. *)
Theorem unscheduled_slot_unchanged numStars dt sched c c' i :
  turns i sched = 0 →
  exec pair_body numStars dt sched c = Some c' →
  mem c' !! i = mem c !! i ∧ pcs c' !! i = pcs c !! i.
Proof.
  revert c. induction sched as [|t sched IH]; intros c; simpl.
  - now intros _ [= <-].
  - unfold turns. rewrite filter_cons.
    destruct (decide (t = i)) as [->|Hne]; [simpl; lia|].
    fold (turns i sched). intros Ht.
    destruct (step pair_body numStars dt t c) as [c1|] eqn:Hstep;
      simpl; [|done].
    intros Hexec. destruct (IH c1 Ht Hexec) as [-> ->].
    revert Hstep. unfold step.
    destruct (pcs c !! t) as [p|] eqn:Hp; [|now intros [= <-]].
    destruct (thread_step pair_body numStars dt t p (mem c))
      as [[m' p']|] eqn:Hts; simpl; [|done].
    intros [= <-]. simpl. rewrite list_lookup_insert_ne by done.
    split; [|done].
    destruct p as [j|j dx| | |]; simpl in Hts.
    + destruct (j <? numStars); [|now injection Hts as <- _].
      destruct (t =? j); [now injection Hts as <- _|].
      destruct (mem c !! j); simpl in Hts; [|done].
      destruct (mem c !! t); simpl in Hts; [|done]. now injection Hts as <- _.
    + destruct (mem c !! j); simpl in Hts; [|done].
      destruct (mem c !! t); simpl in Hts; [|done].
      injection Hts as <- _. now rewrite list_lookup_insert_ne.
    + destruct (mem c !! t); simpl in Hts; [|done].
      injection Hts as <- _. now rewrite list_lookup_insert_ne.
    + destruct (mem c !! t); simpl in Hts; [|done].
      injection Hts as <- _. now rewrite list_lookup_insert_ne.
    + now injection Hts as <- _.
Qed.

Lemma unscheduled_slot_unchanged_witness :
  ∃ c', exec pair_body 2 dt (serial 2 [0]) (launch 2 2 heavy_pair) = Some c' ∧
        mem c' !! 1 = heavy_pair !! 1.
Proof.
  eexists. split; [vm_compute; reflexivity|].
  apply (unscheduled_slot_unchanged 2 dt (serial 2 [0]) (launch 2 2 heavy_pair));
    [vm_compute; reflexivity|vm_compute; reflexivity].
Defined.

Section Solo.

Variables (numStars : nat) (dt : F32.t).

Abbreviation kstep := (step pair_body numStars dt).
Abbreviation kexec := (exec pair_body numStars dt).

Lemma exec_replicate_S k i c :
  kexec (replicate (S k) i) c = kstep i c ≫= kexec (replicate k i).
Proof. reflexivity. Qed.

Lemma exec_done k i c :
  pcs c !! i = Some Done → kexec (replicate k i) c = Some c.
Proof.
  intros Hp. induction k as [|k IH]; [done|].
  rewrite exec_replicate_S. unfold step at 1. rewrite Hp. simpl.
  rewrite list_insert_id by done. destruct c. exact IH.
Qed.

(** Thread [i] alone runs the rest of its loop on a buffer that agrees
    with [m] outside slot [i]. *)
Ltac run_step := cbn [thread_step mbind option_bind mem pcs].

Lemma solo_loop (m : list Star) i k :
  ∀ j c a,
    j + k = numStars → numStars ≤ length m → i < numStars →
    pcs c !! i = Some (AtLoop j) → mem c !! i = Some a →
    (∀ j', j' ≠ i → mem c !! j' = m !! j') →
    kexec (replicate (loop_left numStars i (AtLoop j)) i) c
    = Some {| mem := <[i := foldl (snapshot_pair dt m i) a (seq j k)]> (mem c);
              pcs := <[i := AtX]> (pcs c) |}.
Proof.
  induction k as [|k IH]; intros j c a Hjk Hn Hi Hp Ha Hm.
  - assert (j = numStars) as -> by lia.
    replace (loop_left numStars i (AtLoop numStars)) with 1
      by (cbn [loop_left]; repeat case_decide; lia).
    rewrite exec_replicate_S. unfold step. rewrite Hp. run_step.
    destruct (Nat.ltb_spec numStars numStars); [lia|]. run_step.
    cbn [replicate exec seq foldl].
    now rewrite (list_insert_id (mem c) i a Ha).
  - assert (Hlt : i < length (pcs c)) by eauto using lookup_lt_Some.
    assert (Hlm : i < length (mem c)) by eauto using lookup_lt_Some.
    cbn [seq foldl]. destruct (decide (i = j)) as [->|Hne].
    + replace (loop_left numStars j (AtLoop j))
        with (S (loop_left numStars j (AtLoop (S j))))
        by (cbn [loop_left]; repeat case_decide; lia).
      rewrite exec_replicate_S. unfold step at 1. rewrite Hp. run_step.
      destruct (Nat.ltb_spec j numStars); [|lia].
      destruct (Nat.eqb_spec j j); [|congruence]. run_step.
      rewrite (IH (S j) _ a); cbn [mem pcs]; try done; try lia.
      * assert (snapshot_pair dt m j a j = a) as ->
          by (unfold snapshot_pair; destruct (Nat.eqb_spec j j); congruence).
        now rewrite list_insert_insert_eq.
      * now rewrite list_lookup_insert_eq.
    + destruct (lookup_lt_is_Some_2 m j) as [sj Hsj]; [lia|].
      replace (loop_left numStars i (AtLoop j))
        with (S (S (loop_left numStars i (AtLoop (S j)))))
        by (cbn [loop_left]; repeat case_decide; lia).
      rewrite !exec_replicate_S. unfold step at 1. rewrite Hp. run_step.
      destruct (Nat.ltb_spec j numStars); [|lia].
      destruct (Nat.eqb_spec i j); [done|].
      rewrite (Hm j) by done. rewrite Hsj, Ha. run_step.
      rewrite exec_replicate_S.
      unfold step at 1. run_step. rewrite list_lookup_insert_eq by done.
      run_step. rewrite (Hm j) by done. rewrite Hsj, Ha. run_step.
      rewrite (IH (S j) _ (pair_body dt a sj (x sj - x a)%f32 (y sj - y a)%f32));
        cbn [mem pcs]; try done; try lia.
      * assert (snapshot_pair dt m i a j
                = pair_body dt a sj (x sj - x a)%f32 (y sj - y a)%f32) as ->.
        { unfold snapshot_pair. destruct (Nat.eqb_spec i j); [done|].
          now rewrite Hsj. }
        now rewrite !list_insert_insert_eq.
      * now rewrite list_lookup_insert_eq by (rewrite length_insert; done).
      * now rewrite list_lookup_insert_eq.
      * intros j' Hj'. rewrite list_lookup_insert_ne by done. now apply Hm.
Qed.

Lemma step_AtX c i a :
  pcs c !! i = Some AtX → mem c !! i = Some a →
  kstep i c = Some {| mem := <[i := advance_x dt a]> (mem c);
                      pcs := <[i := AtY]> (pcs c) |}.
Proof. intros Hp Ha. unfold step. rewrite Hp. run_step. now rewrite Ha. Qed.

Lemma step_AtY c i a :
  pcs c !! i = Some AtY → mem c !! i = Some a →
  kstep i c = Some {| mem := <[i := advance_y dt a]> (mem c);
                      pcs := <[i := Done]> (pcs c) |}.
Proof. intros Hp Ha. unfold step. rewrite Hp. run_step. now rewrite Ha. Qed.

(** Thread [i] alone, from its entry to its return. *)
Lemma solo_run i c si :
  numStars ≤ length (mem c) → i < numStars →
  pcs c !! i = Some (AtLoop 0) → mem c !! i = Some si →
  kexec (replicate (2 * numStars + 3) i) c
  = Some {| mem := <[i := snapshot_unit numStars dt (mem c) i si]> (mem c);
            pcs := <[i := Done]> (pcs c) |}.
Proof.
  intros Hn Hi Hp Hsi.
  assert (Hlt : i < length (pcs c)) by eauto using lookup_lt_Some.
  assert (Hlm : i < length (mem c)) by eauto using lookup_lt_Some.
  replace (2 * numStars + 3)
    with (loop_left numStars i (AtLoop 0) + (2 + 1))
    by (cbn [loop_left]; repeat case_decide; lia).
  rewrite replicate_add, exec_app.
  rewrite (solo_loop (mem c) i numStars 0 c si); try done; try lia.
  cbn [mbind option_bind].
  set (a := foldl (snapshot_pair dt (mem c) i) si (seq 0 numStars)).
  rewrite replicate_add, exec_app.
  change (replicate 2 i) with [i; i]. cbn [exec].
  rewrite (step_AtX _ i a); cbn [mem pcs];
    [|now rewrite list_lookup_insert_eq..].
  cbn [mbind option_bind].
  rewrite (step_AtY _ i (advance_x dt a)); cbn [mem pcs];
    [|now rewrite list_lookup_insert_eq by (rewrite ?length_insert; done)..].
  cbn [mbind option_bind].
  rewrite exec_done; cbn [mem pcs];
    [|now rewrite list_lookup_insert_eq by (rewrite ?length_insert; done)].
  now rewrite !list_insert_insert_eq.
Qed.

Lemma unit_inplace_length m i :
  length (unit_inplace numStars dt m i) = length m.
Proof.
  unfold unit_inplace. destruct (i <? numStars); [|done].
  destruct (m !! i); [|done]. apply length_insert.
Qed.

Lemma serial_exec order :
  ∀ c,
    numStars ≤ length (mem c) → NoDup order →
    (∀ i, i ∈ order → pcs c !! i = Some (entry numStars i)) →
    ∃ c', kexec (serial numStars order) c = Some c' ∧
          mem c' = foldl (unit_inplace numStars dt) (mem c) order.
Proof.
  induction order as [|i order IH]; intros c Hn Hnd Hentry.
  - exists c. done.
  - apply NoDup_cons in Hnd as [Hni Hnd].
    unfold serial. rewrite bind_cons, exec_app. fold (serial numStars order).
    pose proof (Hentry i ltac:(left)) as Hp. unfold entry in Hp.
    cbn [foldl]. unfold unit_inplace at 2.
    destruct (Nat.ltb_spec i numStars) as [Hi|Hi].
    + destruct (lookup_lt_is_Some_2 (mem c) i) as [si Hsi]; [lia|].
      rewrite (solo_run i c si Hn Hi Hp Hsi), Hsi. simpl.
      apply IH; simpl; [now rewrite length_insert|done|].
      intros i' Hi'. rewrite list_lookup_insert_ne by (intros ->; done).
      apply Hentry. now right.
    + rewrite (exec_done _ i c Hp). simpl. apply IH; [done|done|].
      intros i' Hi'. apply Hentry. now right.
Qed.

End Solo.

(** X7: running the units one after the other, each to its end, is an
    execution of the kernel, and it computes what the single-threaded
    loop over the units computes in place. *)
Theorem serial_is_sequential numStars dt T order s0 :
  numStars ≤ length s0 → NoDup order →
  (∀ i, i ∈ order → i < T) →
  (∀ i, i < numStars → i < T → i ∈ order) →
  updateStars numStars dt T (serial numStars order) s0
  = Some (updateStars_sequential numStars dt order s0).
Proof.
  intros Hn Hnd Hin Hall.
  destruct (serial_exec numStars dt order (launch numStars T s0) Hn Hnd)
    as (c' & Hexec & Hmem).
  { intros i Hi. rewrite launch_pcs. case_decide; [done|].
    specialize (Hin i Hi). lia. }
  unfold updateStars, tick. rewrite Hexec. simpl.
  rewrite (exec_finished numStars dt T s0 (serial numStars order) c').
  - now rewrite Hmem.
  - intros i Hi HT. apply turns_serial. auto.
  - exact Hexec.
Qed.

Lemma serial_is_sequential_witness :
  updateStars 2 dt 2 (serial 2 [1; 0]) heavy_pair
  = Some (updateStars_sequential 2 dt [1; 0] heavy_pair).
Proof.
  apply (serial_is_sequential 2 dt 2 [1; 0] heavy_pair).
  - exact (le_n 2).
  - apply (bool_decide_unpack _). vm_compute. exact I.
  - intros i Hi. repeat (apply elem_of_cons in Hi as [->|Hi]); try lia.
    now apply elem_of_nil in Hi.
  - intros [|[|i]] Hi _; [| |lia]; rewrite !elem_of_cons; auto.
Defined.

(** ** The brightness of lines 43-44 *)

Lemma brightness_step_value : brightness_step = S754_finite false 14233598 (-58).
Proof. vm_compute. reflexivity. Qed.

(** Rounding [M * 2^(e - d)] to [m * 2^e] when the [d] low bits of [M]
    are below one half. *)
Lemma binary_round_down (m M d : positive) (e : Z) :
  digits2_pos m = 24%positive →
  digits2_pos M = (24 + d)%positive →
  SpecFloat.iter_pos shr_1 d {| shr_m := Zpos M; shr_r := false; shr_s := false |}
  = {| shr_m := Zpos m; shr_r := false; shr_s := true |} →
  (-149 <= e <= 104)%Z →
  binary_round 24 128 false M (e - Zpos d) = S754_finite false m e.
Proof.
  intros Hm HM Hiter He.
  assert (Hf : ∀ D, fexp 24 128 (Zpos (24 + D) + (e - Zpos D)) = e).
  { intros D. unfold fexp, emin. rewrite Pos2Z.inj_add. lia. }
  unfold binary_round. rewrite HM, Hf.
  unfold shl_align. replace (e - (e - Zpos d))%Z with (Zpos d) by lia.
  unfold binary_round_aux, shr_fexp, Zdigits2. rewrite HM, Hf.
  replace (e - (e - Zpos d))%Z with (Zpos d) by lia.
  unfold shr, shr_record_of_loc. rewrite Hiter.
  cbn [shr_m loc_of_shr_record round_nearest_even].
  rewrite Hm.
  replace (fexp 24 128 (Zpos 24 + (e - Zpos d + Zpos d)) - (e - Zpos d + Zpos d))%Z
    with 0%Z by (unfold fexp, emin; lia).
  cbn [shr_m].
  replace (e - Zpos d + Zpos d)%Z with e by lia.
  destruct (Z.leb_spec e (128 - 24)); [done|lia].
Qed.

Ltac absorb_at m d e Hd :=
  change (F32.add (S754_finite false m e) (S754_finite false 14233598 (-58)))
    with (binary_round 24 128 false (Pos.iter xO m d + 14233598) (e - Zpos d));
  apply binary_round_down;
  [ exact Hd
  | cbv -[digits2_pos]; simpl; rewrite Hd; reflexivity
  | vm_compute; reflexivity
  | lia ].

Lemma add_step_absorbed (m : positive) (e : Z) :
  digits2_pos m = 24%positive → (-27 <= e <= -23)%Z →
  (S754_finite false m e + brightness_step)%f32 = S754_finite false m e.
Proof.
  intros Hd He. rewrite brightness_step_value.
  assert (e = -27 ∨ e = -26 ∨ e = -25 ∨ e = -24 ∨ e = -23)%Z
    as [->|[->|[->|[->| ->]]]] by lia.
  - absorb_at m 31%positive (-27)%Z Hd.
  - absorb_at m 32%positive (-26)%Z Hd.
  - absorb_at m 33%positive (-25)%Z Hd.
  - absorb_at m 34%positive (-24)%Z Hd.
  - absorb_at m 35%positive (-23)%Z Hd.
Qed.

Lemma leb_ltb_false (a b : F32.t) : F32.leb a b = true → F32.ltb b a = false.
Proof.
  unfold F32.ltb, F32.leb, SFltb, SFleb.
  rewrite (F32Facts.compare_antisym a b).
  destruct (SFcompare a b) as [[]|]; simpl; congruence.
Qed.

Lemma in_range_shape (b : F32.t) :
  valid_binary 24 128 b = true → in_range b →
  ∃ m e, b = S754_finite false m e ∧ digits2_pos m = 24%positive ∧ (-27 <= e <= -23)%Z.
Proof.
  intros Hv [Hlo Hhi].
  destruct b as [s|s| |s m e]; try (destruct s; discriminate); try discriminate.
  destruct s; [discriminate|].
  assert (-27 <= e <= -23)%Z as He.
  { unfold F32.leb, SFleb, MIN_BRIGHTNESS, F32.one in Hlo, Hhi.
    cbn [SFcompare] in Hlo, Hhi.
    destruct (Z.compare_spec (-27) e), (Z.compare_spec e (-23)); try discriminate; lia. }
  exists m, e. split; [done|]. split; [|done].
  unfold valid_binary, bounded, canonical_mantissa in Hv.
  apply andb_true_iff in Hv as [Hc _].
  apply Z.eqb_eq in Hc. unfold fexp, emin in Hc.
  assert (Zpos (digits2_pos m) = 24)%Z by lia. congruence.
Qed.

(** Line 43 adds less than half a unit in the last place of any
    binary32 number of [[0.1, 1.0]], and the clamp of line 44 keeps what
    is in the range. *)
Lemma bump_absorbed (b : F32.t) :
  valid_binary 24 128 b = true → in_range b → bump b = b.
Proof.
  intros Hv Hr. destruct (in_range_shape b Hv Hr) as (m & e & -> & Hd & He).
  destruct Hr as [Hlo Hhi].
  unfold bump. rewrite add_step_absorbed by done.
  assert (Hmax : F32.fmaxf (S754_finite false m e) MIN_BRIGHTNESS
                 = S754_finite false m e).
  { unfold F32.fmaxf. change (F32.is_nan MIN_BRIGHTNESS) with false.
    cbn [F32.is_nan]. now rewrite (leb_ltb_false _ _ Hlo). }
  rewrite Hmax. unfold F32.fminf. change (F32.is_nan F32.one) with false.
  cbn [F32.is_nan]. now rewrite (leb_ltb_false _ _ Hhi).
Qed.

(** X8: one pass of the loop body leaves a brightness that is a binary32
    number of [[0.1, 1.0]] as it is: the increment
    [MAX_FORCE / (450 * 450)] of line 43 is lost in the rounding of the
    sum, whatever the partner and the distances. *)
Theorem loop_body_keeps_brightness dt si sj dx dy :
  valid_binary 24 128 (brightness si) = true → in_range (brightness si) →
  brightness (pair_body dt si sj dx dy) = brightness si.
Proof.
  intros Hv Hr. unfold pair_body; cbn [brightness].
  now apply bump_absorbed.
Qed.

Lemma loop_body_keeps_brightness_witness :
  brightness (pair_body dt
                (mkStar F32.zero F32.zero F32.one F32.zero F32.zero
                        (S754_finite false 8388608 (-24)) F32.zero)
                (mkStar F32.one F32.zero F32.one F32.zero F32.zero
                        F32.zero F32.zero) F32.one F32.zero)
  = S754_finite false 8388608 (-24).
Proof.
  apply (loop_body_keeps_brightness dt
           (mkStar F32.zero F32.zero F32.one F32.zero F32.zero
                   (S754_finite false 8388608 (-24)) F32.zero));
    [reflexivity|split; reflexivity].
Defined.

(** X9: under any schedule, a tick that completes leaves every brightness
    that is a binary32 number of [[0.1, 1.0]] as it was. *)
Theorem tick_keeps_brightness numStars dt T sched s0 out i s s' :
  numStars ≤ length s0 →
  updateStars numStars dt T sched s0 = Some out →
  s0 !! i = Some s → out !! i = Some s' →
  valid_binary 24 128 (brightness s) = true → in_range (brightness s) →
  brightness s' = brightness s.
Proof.
  intros Hn Htick Hs Hs' Hv Hr.
  destruct (tick_frame numStars dt T s0 sched out i s Hn Htick Hs)
    as (si & Hsi & _ & _ & Hb).
  assert (si = s') as -> by congruence.
  rewrite Hb. destruct (decide _); [|done]. clear Hb.
  induction (numStars - 1) as [|k IH]; [done|].
  rewrite Nat.iter_succ, IH. now apply bump_absorbed.
Qed.

Lemma tick_keeps_brightness_witness :
  ∃ out s',
    updateStars 2 dt 2 (serial 2 [0; 1])
      (two_body F32.one (F32.of_int (10 ^ 12))
                MIN_BRIGHTNESS F32.zero F32.one F32.zero) = Some out ∧
    out !! 1 = Some s' ∧
    brightness s'
    = brightness (mkStar F32.one F32.zero (F32.of_int (10 ^ 12))
                         F32.zero F32.zero F32.one F32.zero).
Proof.
  do 2 eexists. split; [vm_compute; reflexivity|]. split; [reflexivity|].
  eapply (tick_keeps_brightness 2 dt 2 (serial 2 [0; 1])
            (two_body F32.one (F32.of_int (10 ^ 12))
                      MIN_BRIGHTNESS F32.zero F32.one F32.zero) _ 1);
    [vm_compute; lia|vm_compute; reflexivity|reflexivity|reflexivity
    |reflexivity|split; reflexivity].
Defined.

(** ** A partner at the same position *)

Section Coincident.

Import F32 F32Facts F32Signs.

Lemma sub_diag a : is_finite a = true → (a - a)%f32 = zero.
Proof.
  destruct a as [[]|[]| |s m e]; try discriminate; intros _; try reflexivity.
  unfold sub, SFsub. rewrite Z.sub_diag. reflexivity.
Qed.

Lemma compare_refl_finite s m e :
  SFcompare (S754_finite s m e) (S754_finite s m e) = Some Eq.
Proof.
  destruct s; simpl; rewrite Z.compare_refl;
    try rewrite Pos.compare_cont_refl; rewrite ?Pos.compare_refl; reflexivity.
Qed.

Lemma add_zero_eqb v z :
  is_nan v = false → is_zero z = true → eqb (v + z)%f32 v = true.
Proof.
  destruct z as [sz| | |]; try discriminate. intros Hv _.
  destruct v as [s|s| |s m e]; try discriminate.
  - destruct s, sz; reflexivity.
  - destruct s; reflexivity.
  - unfold eqb, SFeqb. cbn [add SFadd]. now rewrite compare_refl_finite.
Qed.

(** The contribution of a partner at the position of the unit: both
    components are zeros. *)
Lemma code_accel_coincident si sj :
  is_finite (G * mass sj * mass si / softening)%f32 = true →
  is_zero (mass si) = false →
  is_zero (code_accel si sj zero zero).1 = true ∧
  is_zero (code_accel si sj zero zero).2 = true.
Proof.
  intros Hf Hz. unfold code_accel; cbn [fst snd].
  change (zero * zero + zero * zero + softening)%f32 with softening.
  assert (Hm : is_nan (mass si) = false).
  { apply div_finite_inv in Hf as (Hp & _).
    apply mul_finite_inv in Hp as [_ Hm]. now destruct (mass si). }
  assert (is_zero (zero / sqrtf softening)%f32 = true) by reflexivity.
  split; (apply zero_div_zero; [|done|done]); now apply mul_zero_r.
Qed.

End Coincident.

(** X10: a partner at exactly the position of the unit changes neither
    component of the velocity (in the sense of [==]): the softening makes
    the divisor [1e-5] and the pull a zero, provided that
    [G * mj * mi / 1e-5] does not overflow and [mi] is not zero. *)
Theorem coincident_partner_no_pull dt si o :
  x o = x si → y o = y si →
  F32.is_finite (x si) = true → F32.is_finite (y si) = true →
  F32.is_finite (G * mass o * mass si / softening)%f32 = true →
  is_zero (mass si) = false →
  F32.is_finite dt = true →
  F32.is_nan (vx si) = false → F32.is_nan (vy si) = false →
  F32.eqb (vx (look dt si o)) (vx si) = true ∧
  F32.eqb (vy (look dt si o)) (vy si) = true.
Proof.
  intros Hx Hy Hfx Hfy Hf Hz Hdt Hvx Hvy.
  destruct (code_accel_coincident si o Hf Hz) as [Ha Hb].
  unfold look. rewrite Hx, Hy, !sub_diag by done.
  unfold code_accel in Ha, Hb; cbn [fst snd] in Ha, Hb.
  unfold pair_body; cbn [vx vy].
  split; apply add_zero_eqb; try done; now apply F32Signs.mul_zero_l.
Qed.

Lemma coincident_partner_no_pull_witness :
  F32.eqb
    (vx (look dt (mkStar F32.one F32.two F32.one F32.one (- F32.one)%f32
                         F32.zero F32.zero)
                 (mkStar F32.one F32.two F32.two F32.zero F32.zero
                         F32.zero F32.zero)))
    F32.one = true.
Proof.
  apply (coincident_partner_no_pull dt
           (mkStar F32.one F32.two F32.one F32.one (- F32.one)%f32
                   F32.zero F32.zero)
           (mkStar F32.one F32.two F32.two F32.zero F32.zero
                   F32.zero F32.zero)); reflexivity.
Defined.

(** ** The grid of [main] *)

Section Surplus.

Variable body : F32.t → Star → Star → F32.t → F32.t → Star.
Variables (numStars : nat) (dt : F32.t).

Lemma step_padded k i c c' :
  padded k c c' →
  match step body numStars dt i c with
  | Some d => ∃ d', step body numStars dt i c' = Some d' ∧ padded k d d'
  | None => step body numStars dt i c' = None
  end.
Proof.
  intros [Hm Hp]. unfold step. rewrite Hp, Hm.
  destruct (pcs c !! i) as [p|] eqn:Hi.
  - rewrite (lookup_app_l_Some _ _ _ _ Hi).
    destruct (thread_step body numStars dt i p (mem c)) as [[stars p']|];
      simpl; [|done].
    eexists. split; [done|]. split; [done|]. simpl.
    apply lookup_lt_Some in Hi. now rewrite insert_app_l.
  - apply lookup_ge_None in Hi. rewrite lookup_app_r by done.
    destruct (replicate k Done !! (i - length (pcs c))) as [p|] eqn:Hr.
    + apply lookup_replicate in Hr as [-> Hlt]. cbn.
      eexists. split; [done|]. split; [done|]. cbn.
      rewrite insert_app_r_alt by done.
      rewrite list_insert_id; [done|]. now apply lookup_replicate.
    + eexists. split; [done|]. split; [done|]. now rewrite Hp.
Qed.

Lemma exec_padded k sched c c' :
  padded k c c' →
  match exec body numStars dt sched c with
  | Some d => ∃ d', exec body numStars dt sched c' = Some d' ∧ padded k d d'
  | None => exec body numStars dt sched c' = None
  end.
Proof.
  revert c c'. induction sched as [|i sched IH]; intros c c' Hc; cbn [exec].
  - eauto.
  - pose proof (step_padded k i c c' Hc) as Hs.
    destruct (step body numStars dt i c) as [d|]; cbn.
    + destruct Hs as (d' & -> & Hd). cbn. now apply IH.
    + now rewrite Hs.
Qed.

Lemma launch_padded k stars :
  padded k (launch numStars numStars stars) (launch numStars (numStars + k) stars).
Proof.
  split; [done|]. unfold launch; cbn [pcs].
  rewrite seq_app, fmap_app. f_equal.
  apply list_eq. intros i. rewrite list_lookup_fmap.
  destruct (decide (i < k)) as [Hi|Hi].
  - rewrite lookup_seq_lt by done.
    rewrite lookup_replicate_2 by done. cbn. unfold entry.
    destruct (_ <? _) eqn:E; [apply Nat.ltb_lt in E; lia|done].
  - rewrite lookup_seq_ge by lia. symmetry. apply lookup_replicate_None. lia.
Qed.

Lemma finished_padded k c c' :
  padded k c c' → finished c' = finished c.
Proof.
  intros [_ Hp]. unfold finished. rewrite Hp, forallb_app.
  assert (forallb is_done (replicate k Done) = true) as ->
    by (clear Hp; induction k; [done|simpl; auto]).
  apply andb_true_r.
Qed.

Lemma tick_padded k sched stars :
  tick body numStars dt (numStars + k) sched stars
  = tick body numStars dt numStars sched stars.
Proof.
  unfold tick.
  pose proof (exec_padded k sched _ _ (launch_padded k stars)) as H.
  destruct (exec body numStars dt sched (launch numStars numStars stars))
    as [d|]; cbn.
  - destruct H as (d' & -> & Hd). cbn.
    rewrite (finished_padded k d d' Hd). destruct Hd as [-> _]. done.
  - now rewrite H.
Qed.

End Surplus.

(** X11: the threads of the grid of [main] beyond [numStars] change
    nothing: under every schedule the launch with
    [numBlocks * numThreads] threads ends as the launch with exactly
    [numStars] threads does. *)
Theorem grid_surplus_threads_idle numStars dt sched s0 :
  updateStars numStars dt (grid numStars) sched s0
  = updateStars numStars dt numStars sched s0.
Proof.
  pose proof (grid_covers numStars) as Hg.
  replace (grid numStars) with (numStars + (grid numStars - numStars)) by lia.
  apply tick_padded.
Qed.

(** X12: the grid of [main] has fewer than one block of surplus threads,
    and a whole number of blocks. *)
Theorem grid_bounds numStars :
  numStars ≤ grid numStars < numStars + numThreads ∧
  grid numStars `mod` numThreads = 0.
Proof.
  split; [split; [apply grid_covers|]|].
  - unfold grid, numBlocks, numThreads.
    pose proof (Nat.div_mod_eq (numStars + 512 - 1) 512).
    pose proof (Nat.mod_upper_bound (numStars + 512 - 1) 512 ltac:(lia)). lia.
  - unfold grid. apply Nat.Div0.mod_mul.
Qed.

(** ** Construction *)

(** * Further properties of the construction *)

Section ConstructionFrame.

Variable RAND_MAX : Z.
Variable rand_values : nat → Z.
Variables sinf cosf : F32.t → F32.t.

Abbreviation loop := (init_loop RAND_MAX rand_values sinf cosf).
Abbreviation build := (construct RAND_MAX rand_values sinf cosf).

Lemma init_loop_frame idx :
  ∀ stars g out g',
    loop idx stars g = Some (out, g') →
    length out = length stars ∧
    (∀ i, i ∈ idx → i < length stars) ∧
    (∀ i, i ∉ idx → out !! i = stars !! i) ∧
    brightness <$> out = brightness <$> stars.
Proof.
  induction idx as [|k idx IH]; intros stars g out g'; cbn [init_loop].
  - intros [= <- <-]. repeat split; auto. intros i Hi. now apply elem_of_nil in Hi.
  - destruct (stars !! k) as [old|] eqn:Hold; cbn [mbind option_bind]; [|done].
    rewrite (init_star_rng RAND_MAX rand_values sinf cosf old g).
    intros Hloop. apply IH in Hloop as (Hlen & Hin & Hout & Hb).
    rewrite length_insert in Hlen, Hin.
    pose proof (lookup_lt_Some _ _ _ Hold) as Hk.
    repeat split.
    + done.
    + intros i [->|Hi]%elem_of_cons; auto.
    + intros i Hi. apply not_elem_of_cons in Hi as [Hne Hi].
      rewrite Hout by done. now apply list_lookup_insert_ne.
    + rewrite Hb. apply list_eq. intros i. rewrite !list_lookup_fmap.
      destruct (decide (i = k)) as [->|Hne].
      * rewrite list_lookup_insert_eq by done. now rewrite Hold.
      * now rewrite list_lookup_insert_ne.
Qed.

Lemma construct_frame numStars buf out :
  build numStars buf = Some out →
  length out = length buf ∧ 1 ≤ length buf ∧
  (2 ≤ numStars → numStars ≤ length buf) ∧
  (∀ i, numStars ≤ i → 1 ≤ i → out !! i = buf !! i) ∧
  brightness <$> out = brightness <$> buf ∧
  opacity <$> out !! 0 = opacity <$> buf !! 0.
Proof.
  unfold construct.
  destruct (buf !! 0) as [old0|] eqn:Hold0; cbn [mbind option_bind]; [|done].
  destruct (loop _ _ _) as [[stars g']|] eqn:Hloop; cbn [mbind option_bind];
    [|done].
  intros [= <-]. apply init_loop_frame in Hloop as (Hlen & Hin & Hout & Hb).
  rewrite length_insert in Hlen, Hin.
  pose proof (lookup_lt_Some _ _ _ Hold0) as H0.
  repeat split.
  - done.
  - lia.
  - intros H2. enough (numStars - 1 < length buf) by lia.
    apply Hin, elem_of_seq. lia.
  - intros i Hi H1. rewrite Hout by (rewrite elem_of_seq; lia).
    apply list_lookup_insert_ne. lia.
  - rewrite Hb. apply list_eq. intros i. rewrite !list_lookup_fmap.
    destruct (decide (i = 0)) as [->|Hne].
    + rewrite list_lookup_insert_eq by done. now rewrite Hold0.
    + now rewrite list_lookup_insert_ne.
  - rewrite Hout by (rewrite elem_of_seq; lia).
    now rewrite list_lookup_insert_eq by done.
Qed.

End ConstructionFrame.

(** X13: construction succeeds exactly when the buffer holds slot 0 and
    [numStars] slots: slot 0 is written even when [numStars] is 0, and a
    shorter buffer is accessed outside its bounds. *)
Theorem construct_in_bounds RAND_MAX rand_values sinf cosf numStars buf :
  is_Some (construct RAND_MAX rand_values sinf cosf numStars buf)
  ↔ 1 ≤ length buf ∧ numStars ≤ length buf.
Proof.
  split.
  - intros [out Hout].
    apply construct_frame in Hout as (_ & H1 & H2 & _).
    split; [done|]. destruct (decide (2 ≤ numStars)); [auto|lia].
  - intros [H1 Hn]. destruct numStars as [|n].
    + unfold construct. destruct (lookup_lt_is_Some_2 buf 0) as [old ->]; [lia|].
      simpl. eauto.
    + destruct (construct_spec RAND_MAX rand_values sinf cosf (S n) buf
                  ltac:(lia) Hn) as (out & _ & -> & _).
      eauto.
Qed.

(** X14: construction assigns no brightness, and no opacity to the
    central particle: these fields keep what the allocation held.  The
    slots at or beyond [numStars] are not written at all. *)
Theorem construct_leaves_unassigned RAND_MAX rand_values sinf cosf numStars
    buf out :
  construct RAND_MAX rand_values sinf cosf numStars buf = Some out →
  brightness <$> out = brightness <$> buf ∧
  opacity <$> out !! 0 = opacity <$> buf !! 0 ∧
  ∀ i, numStars ≤ i → 1 ≤ i → out !! i = buf !! i.
Proof.
  intros (_ & _ & _ & Hbeyond & Hb & Ho)%construct_frame. auto.
Qed.

Lemma construct_leaves_unassigned_witness :
  ∃ out,
    construct 2147483647 (λ n, 1000000 * (Z.of_nat n + 1))%Z
              (λ _, F32.zero) (λ _, F32.one) 2
              (replicate 3 (mkStar F32.zero F32.zero F32.zero F32.zero
                                   F32.zero F32.one F32.two))
    = Some out ∧
    brightness <$> out = [F32.one; F32.one; F32.one] ∧
    opacity <$> out !! 0 = Some F32.two.
Proof.
  eexists. split; [vm_compute; reflexivity|].
  destruct (construct_leaves_unassigned 2147483647
              (λ n, 1000000 * (Z.of_nat n + 1))%Z
              (λ _, F32.zero) (λ _, F32.one) 2
              (replicate 3 (mkStar F32.zero F32.zero F32.zero F32.zero
                                   F32.zero F32.one F32.two))
              _ ltac:(vm_compute; reflexivity)) as (Hb & Ho & _).
  split; [exact Hb|exact Ho].
Defined.

(** X15: particle [i] is made from the four draws [4 (i - 1)] to
    [4 (i - 1) + 3] of [rand()] and from nothing else of the stream: two
    streams that agree on these four draws give the same particle
    [i]. *)
Theorem particle_uses_four_draws RAND_MAX rv rv' sinf cosf numStars buf i :
  1 ≤ i < numStars → numStars ≤ length buf →
  (∀ k, k < 4 → rv (4 * (i - 1) + k) = rv' (4 * (i - 1) + k)) →
  ∃ out out',
    construct RAND_MAX rv sinf cosf numStars buf = Some out ∧
    construct RAND_MAX rv' sinf cosf numStars buf = Some out' ∧
    out !! i = out' !! i.
Proof.
  intros Hi Hn Hrv.
  destruct (construct_spec RAND_MAX rv sinf cosf numStars buf ltac:(lia) Hn)
    as (out & _ & Hout & _ & _ & Hs).
  destruct (construct_spec RAND_MAX rv' sinf cosf numStars buf ltac:(lia) Hn)
    as (out' & _ & Hout' & _ & _ & Hs').
  exists out, out'. split; [done|]. split; [done|].
  destruct (Hs i Hi) as (old & Hold & ->).
  destruct (Hs' i Hi) as (old' & Hold' & ->).
  assert (old' = old) as -> by congruence.
  f_equal. unfold init_star, rand. cbn [fst].
  pose proof (Hrv 0 ltac:(lia)) as H0. pose proof (Hrv 1 ltac:(lia)) as H1.
  pose proof (Hrv 2 ltac:(lia)) as H2. pose proof (Hrv 3 ltac:(lia)) as H3.
  rewrite Nat.add_0_r in H0.
  replace (4 * (i - 1) + 1) with (S (4 * (i - 1))) in H1 by lia.
  replace (4 * (i - 1) + 2) with (S (S (4 * (i - 1)))) in H2 by lia.
  replace (4 * (i - 1) + 3) with (S (S (S (4 * (i - 1))))) in H3 by lia.
  now rewrite H0, H1, H2, H3.
Qed.

Lemma particle_uses_four_draws_witness :
  ∃ out out',
    construct 2147483647 (λ n, 1000 * Z.of_nat n)%Z
              (λ _, F32.zero) (λ _, F32.one) 3
              (replicate 3 (mkStar F32.zero F32.zero F32.zero F32.zero
                                   F32.zero F32.zero F32.zero)) = Some out ∧
    construct 2147483647 (λ n, if (n <? 4)%nat then 1000 * Z.of_nat n else 7)%Z
              (λ _, F32.zero) (λ _, F32.one) 3
              (replicate 3 (mkStar F32.zero F32.zero F32.zero F32.zero
                                   F32.zero F32.zero F32.zero)) = Some out' ∧
    out !! 1 = out' !! 1.
Proof.
  apply (particle_uses_four_draws 2147483647 (λ n, 1000 * Z.of_nat n)%Z
           (λ n, if (n <? 4)%nat then 1000 * Z.of_nat n else 7)%Z
           (λ _, F32.zero) (λ _, F32.one) 3 _ 1); [lia|simpl; lia|].
  intros [|[|[|[|k]]]] Hk; try lia; reflexivity.
Defined.

(** ** The window events *)

(** * Properties of the event loop *)

Lemma wrap32_idemp_l a b : wrap32 (wrap32 a + b) = wrap32 (a + b).
Proof.
  unfold wrap32. f_equal.
  replace ((a + 2 ^ 31) mod 2 ^ 32 - 2 ^ 31 + b + 2 ^ 31)%Z
    with ((a + 2 ^ 31) mod 2 ^ 32 + b)%Z by lia.
  rewrite Zplus_mod_idemp_l. f_equal. lia.
Qed.

Lemma wrap32_idemp_r a b : wrap32 (a + wrap32 b) = wrap32 (a + b).
Proof. rewrite Z.add_comm, wrap32_idemp_l. f_equal. lia. Qed.

Lemma wrap32_range a : (- 2 ^ 31 <= wrap32 a < 2 ^ 31)%Z.
Proof.
  unfold wrap32. pose proof (Z.mod_pos_bound (a + 2 ^ 31) (2 ^ 32) eq_refl). lia.
Qed.

Lemma wrap32_small a : (- 2 ^ 31 <= a < 2 ^ 31)%Z → wrap32 a = a.
Proof. intros H. unfold wrap32. rewrite Z.mod_small; lia. Qed.

Section EventFacts.

Variables SDL_BUTTON_LEFT SDLK_q SDLK_a : Z.

Abbreviation handle' := (handle SDL_BUTTON_LEFT SDLK_q SDLK_a).
Abbreviation poll' := (poll SDL_BUTTON_LEFT SDLK_q SDLK_a).
Abbreviation on_key' := (on_key SDLK_q SDLK_a).

Lemma on_key_frame e u :
  quit (on_key' e u) = quit u ∧ isDragging (on_key' e u) = isDragging u ∧
  lastMouseX (on_key' e u) = lastMouseX u ∧
  lastMouseY (on_key' e u) = lastMouseY u ∧
  offsetX (on_key' e u) = offsetX u ∧ offsetY (on_key' e u) = offsetY u ∧
  zoom (on_key' e u) = zoom_by SDLK_q SDLK_a (zoom u) (key_sym e).
Proof.
  unfold on_key, zoom_by.
  destruct (key_sym e =? SDLK_q)%Z; [done|].
  destruct (key_sym e =? SDLK_a)%Z; done.
Qed.

Lemma poll_snoc u evs e : poll' u (evs ++ [e]) = handle' (poll' u evs) e.
Proof. apply foldl_snoc. Qed.

End EventFacts.

(** X16: while the left button is held, a run of mouse-motion events
    pans by the net displacement of the mouse, whatever path it took:
    the offset ends at the old offset plus the last mouse position minus
    the position at which the run started (in 32-bit arithmetic). *)
Theorem drag_pans_by_net_motion LEFT Q A u evs e :
  isDragging u = true →
  Forall (λ e', ev_type e' = SDL_MOUSEMOTION) (evs ++ [e]) →
  let u' := poll LEFT Q A u (evs ++ [e]) in
  offsetX u' = wrap32 (offsetX u + ((mouse_state e).1 - lastMouseX u)) ∧
  offsetY u' = wrap32 (offsetY u + ((mouse_state e).2 - lastMouseY u)) ∧
  lastMouseX u' = (mouse_state e).1 ∧ lastMouseY u' = (mouse_state e).2 ∧
  isDragging u' = true.
Proof.
  intros Hd Hall. cbn zeta. revert e Hall.
  induction evs as [|e0 evs IH] using rev_ind; intros e Hall.
  - simpl in Hall. rewrite Forall_singleton in Hall. unfold poll; simpl.
    unfold handle. rewrite Hall.
    destruct (on_key_frame Q A e (on_motion e u))
      as (_ & -> & -> & -> & -> & -> & _).
    unfold on_motion. rewrite Hd. destruct (mouse_state e) as [mx my]; simpl.
    now rewrite !wrap32_idemp_r.
  - apply Forall_app in Hall as [Hall He]. rewrite Forall_singleton in He.
    cbv beta in He. destruct (IH e0 Hall) as (Hx & Hy & Hlx & Hly & Hd').
    rewrite poll_snoc. set (u1 := poll LEFT Q A u (evs ++ [e0])) in *.
    unfold handle. rewrite He.
    destruct (on_key_frame Q A e (on_motion e u1))
      as (_ & -> & -> & -> & -> & -> & _).
    unfold on_motion. rewrite Hd'. destruct (mouse_state e) as [mx my]; simpl.
    rewrite Hx, Hy, Hlx, Hly, !wrap32_idemp_r, !wrap32_idemp_l.
    repeat split; f_equal; lia.
Qed.

Lemma drag_pans_by_net_motion_witness :
  offsetX (poll 1 113 97 (mkUi false true 10 20 5 6 F32.one)
             [mkEvent SDL_MOUSEMOTION 0 0 0 0 (400, 3)%Z;
              mkEvent SDL_MOUSEMOTION 0 0 0 113 (-7, 90)%Z;
              mkEvent SDL_MOUSEMOTION 0 0 0 0 (30, 40)%Z])
  = wrap32 (5 + (30 - 10)).
Proof.
  apply (drag_pans_by_net_motion 1 113 97 (mkUi false true 10 20 5 6 F32.one)
           [mkEvent SDL_MOUSEMOTION 0 0 0 0 (400, 3)%Z;
            mkEvent SDL_MOUSEMOTION 0 0 0 113 (-7, 90)%Z]
           (mkEvent SDL_MOUSEMOTION 0 0 0 0 (30, 40)%Z));
    [reflexivity|repeat constructor].
Defined.

(** X17: the uninitialised [lastMouseX] and [lastMouseY] are never used:
    from the start of [main], whatever these two locals hold, every
    sequence of events leads to the same flags, offsets and zoom. *)
Theorem last_mouse_never_read_uninitialised LEFT Q A evs lx ly lx' ly' :
  let u := poll LEFT Q A (ui_start lx ly) evs in
  let u' := poll LEFT Q A (ui_start lx' ly') evs in
  quit u = quit u' ∧ isDragging u = isDragging u' ∧
  offsetX u = offsetX u' ∧ offsetY u = offsetY u' ∧ zoom u = zoom u' ∧
  (isDragging u = true →
   lastMouseX u = lastMouseX u' ∧ lastMouseY u = lastMouseY u').
Proof.
  cbn zeta. induction evs as [|e evs IH] using rev_ind.
  - unfold poll; simpl. repeat split; congruence.
  - rewrite !poll_snoc.
    set (u := poll LEFT Q A (ui_start lx ly) evs) in *.
    set (u' := poll LEFT Q A (ui_start lx' ly') evs) in *.
    destruct IH as (Hq & Hd & Hx & Hy & Hz & Hl).
    assert (Hl' : isDragging u' = true →
                  lastMouseX u = lastMouseX u' ∧ lastMouseY u = lastMouseY u')
      by (rewrite <- Hd; exact Hl).
    unfold handle. destruct (ev_type e); simpl.
    + tauto.
    + destruct (button_button e =? LEFT)%Z; simpl; tauto.
    + destruct (button_button e =? LEFT)%Z; simpl; [|tauto].
      repeat split; try done.
    + destruct (on_key_frame Q A e (on_motion e u))
        as (-> & -> & -> & -> & -> & -> & ->).
      destruct (on_key_frame Q A e (on_motion e u'))
        as (-> & -> & -> & -> & -> & -> & ->).
      unfold on_motion. rewrite <- Hd.
      destruct (isDragging u) eqn:Hdu.
      * destruct (Hl eq_refl) as [Hlx Hly].
        destruct (mouse_state e) as [mx my]; simpl.
        rewrite Hq, Hx, Hy, Hz, Hlx, Hly. tauto.
      * rewrite Hdu, Hq, Hx, Hy, Hz. repeat split; congruence.
    + destruct (on_key_frame Q A e u) as (-> & -> & -> & -> & -> & -> & ->).
      destruct (on_key_frame Q A e u') as (-> & -> & -> & -> & -> & -> & ->).
      rewrite Hz. tauto.
    + destruct (on_key_frame Q A e u) as (-> & -> & -> & -> & -> & -> & ->).
      destruct (on_key_frame Q A e u') as (-> & -> & -> & -> & -> & -> & ->).
      rewrite Hz. tauto.
    + tauto.
Qed.

(** X18: the zoom after any sequence of events is the fold of the key
    case over the key fields of the mouse-motion, mouse-wheel and
    key-down events, in order: a mouse-motion event runs on into the key
    case, and no other event changes the zoom. *)
Theorem zoom_follows_key_fields LEFT Q A u evs :
  zoom (poll LEFT Q A u evs)
  = foldl (zoom_by Q A) (zoom u) (key_sym <$> filter (λ e, reaches_key e = true) evs).
Proof.
  induction evs as [|e evs IH] using rev_ind; [done|].
  rewrite poll_snoc, filter_app, fmap_app, foldl_app, <- IH.
  set (u1 := poll LEFT Q A u evs).
  unfold handle, reaches_key.
  destruct (ev_type e) eqn:He;
    rewrite ?filter_cons_True, ?filter_cons_False by (rewrite He; done);
    simpl; try done.
  - now destruct (button_button e =? LEFT)%Z.
  - now destruct (button_button e =? LEFT)%Z.
  - destruct (on_key_frame Q A e (on_motion e u1)) as (_ & _ & _ & _ & _ & _ & ->).
    unfold on_motion. destruct (isDragging u1); [|done].
    now destruct (mouse_state e).
  - now destruct (on_key_frame Q A e u1) as (_ & _ & _ & _ & _ & _ & ->).
  - now destruct (on_key_frame Q A e u1) as (_ & _ & _ & _ & _ & _ & ->).
Qed.

Lemma poll_quit LEFT Q A u evs :
  quit (poll LEFT Q A u evs)
  = quit u || existsb is_quit evs.
Proof.
  induction evs as [|e evs IH] using rev_ind.
  - simpl. now rewrite orb_false_r.
  - rewrite poll_snoc, existsb_app. simpl. rewrite orb_false_r, orb_assoc, <- IH.
    set (u1 := poll LEFT Q A u evs).
    unfold handle, is_quit. destruct (ev_type e); simpl.
    + now rewrite orb_true_r.
    + destruct (button_button e =? LEFT)%Z; simpl; now rewrite orb_false_r.
    + destruct (button_button e =? LEFT)%Z; simpl; now rewrite orb_false_r.
    + destruct (on_key_frame Q A e (on_motion e u1)) as (-> & _).
      rewrite orb_false_r. unfold on_motion.
      destruct (isDragging u1); [|done]. now destruct (mouse_state e).
    + destruct (on_key_frame Q A e u1) as (-> & _). now rewrite orb_false_r.
    + destruct (on_key_frame Q A e u1) as (-> & _). now rewrite orb_false_r.
    + now rewrite orb_false_r.
Qed.

(** X19: the quit flag is raised by an [SDL_QUIT] event and by nothing
    else, and no event lowers it. *)
Theorem quit_iff_quit_event LEFT Q A u evs :
  quit (poll LEFT Q A u evs) = true
  ↔ quit u = true ∨ Exists (λ e, ev_type e = SDL_QUIT) evs.
Proof.
  rewrite poll_quit, orb_true_iff, existsb_exists, Exists_exists.
  split; (intros [Hq|(e & Hin & He)]; [now left|right]); exists e.
  - split; [now apply list_elem_of_In|].
    unfold is_quit in He. now destruct (ev_type e).
  - split; [now apply list_elem_of_In|].
    unfold is_quit. now rewrite He.
Qed.

(** X20: without a press of the left button no event pans: when the
    left button is not held and none of the events is a left-button
    press, the offsets stay as they are. *)
Theorem no_pan_without_drag LEFT Q A u evs :
  isDragging u = false →
  Forall (λ e, starts_drag LEFT e = false) evs →
  let u' := poll LEFT Q A u evs in
  offsetX u' = offsetX u ∧ offsetY u' = offsetY u ∧ isDragging u' = false.
Proof.
  intros Hd Hall. cbn zeta.
  induction evs as [|e evs IH] using rev_ind; [done|].
  apply Forall_app in Hall as [Hall He]. rewrite Forall_singleton in He.
  cbv beta in He. destruct (IH Hall) as (Hx & Hy & Hd'). rewrite poll_snoc.
  set (u1 := poll LEFT Q A u evs) in *.
  unfold handle. unfold starts_drag in He. destruct (ev_type e); simpl.
  - done.
  - now rewrite He.
  - destruct (button_button e =? LEFT)%Z; done.
  - destruct (on_key_frame Q A e (on_motion e u1))
      as (_ & -> & _ & _ & -> & -> & _).
    unfold on_motion. now rewrite Hd'.
  - now destruct (on_key_frame Q A e u1) as (_ & -> & _ & _ & -> & -> & _).
  - now destruct (on_key_frame Q A e u1) as (_ & -> & _ & _ & -> & -> & _).
  - done.
Qed.

Lemma no_pan_without_drag_witness :
  offsetX (poll 1 113 97 (mkUi false false 10 20 5 6 F32.one)
             [mkEvent SDL_MOUSEMOTION 0 0 0 97 (400, 3)%Z;
              mkEvent SDL_MOUSEBUTTONDOWN 3 50 60 0 (0, 0)%Z;
              mkEvent SDL_MOUSEBUTTONUP 1 0 0 0 (0, 0)%Z;
              mkEvent SDL_MOUSEMOTION 0 0 0 0 (30, 40)%Z]) = 5%Z.
Proof.
  apply (no_pan_without_drag 1 113 97 (mkUi false false 10 20 5 6 F32.one));
    [reflexivity|repeat constructor].
Defined.

(** X21: [main] runs one tick in every iteration up to and including
    the one in which [SDL_QUIT] is polled, and none after it. *)
Theorem main_loop_ticks_until_quit LEFT Q A numStars dt T pre pending sched
    post u stars :
  quit u = false →
  Forall (λ f, existsb is_quit f.1 = false) pre →
  existsb is_quit pending = true →
  main_loop LEFT Q A numStars dt T (pre ++ (pending, sched) :: post) u stars
  = (λ s, (foldl (poll LEFT Q A) u ((fst <$> pre) ++ [pending]), s))
      <$> run_ticks numStars dt T ((snd <$> pre) ++ [sched]) stars.
Proof.
  revert u stars. induction pre as [|[ev sc] pre IH]; intros u stars Hq Hpre Hp.
  - simpl. rewrite Hq.
    destruct (updateStars numStars dt T sched stars) as [s1|]; simpl; [|done].
    assert (Hq1 : quit (poll LEFT Q A u pending) = true)
      by (rewrite poll_quit, Hp; apply orb_true_r).
    destruct post as [|[ev' sc'] post]; simpl; [done|]. now rewrite Hq1.
  - apply Forall_cons in Hpre as [Hev Hpre]. simpl in Hev.
    cbn [app main_loop fmap list_fmap run_ticks foldl fst snd]. rewrite Hq.
    destruct (updateStars numStars dt T sc stars) as [s1|]; simpl; [|done].
    apply IH; [|done|done].
    rewrite poll_quit, Hq, Hev. done.
Qed.

Lemma main_loop_ticks_until_quit_witness :
  main_loop 1 113 97 2 dt 2
            [([mkEvent SDL_KEYDOWN 0 0 0 113 (0, 0)%Z], lockstep 2 2);
             ([mkEvent SDL_QUIT 0 0 0 0 (0, 0)%Z], serial 2 [0; 1]);
             ([], lockstep 2 2)]
            (ui_start 0 0) heavy_pair
  = (λ s, (foldl (poll 1 113 97) (ui_start 0 0)
                 [[mkEvent SDL_KEYDOWN 0 0 0 113 (0, 0)%Z];
                  [mkEvent SDL_QUIT 0 0 0 0 (0, 0)%Z]], s))
      <$> run_ticks 2 dt 2 [lockstep 2 2; serial 2 [0; 1]] heavy_pair.
Proof.
  apply (main_loop_ticks_until_quit 1 113 97 2 dt 2
           [([mkEvent SDL_KEYDOWN 0 0 0 113 (0, 0)%Z], lockstep 2 2)]
           [mkEvent SDL_QUIT 0 0 0 0 (0, 0)%Z] (serial 2 [0; 1])
           [([], lockstep 2 2)] (ui_start 0 0) heavy_pair);
    [reflexivity|repeat constructor|reflexivity].
Defined.
